(** * RandomSorter: allocation ledger and sorter tree

    A shallow embedding of [src/master/allocator/mesos/sorter/random/sorter.hpp]:
    the per-node allocation ledger ([RandomSorter::Node::Allocation]), the
    node record with its constructor, [clientPath], [isLeaf], [addChild] and
    [removeChild], and the relative weights cached by [SortInfo]. *)

From Stdlib Require Import QArith Qcanon.
From stdpp Require Import gmap gmultiset strings list fin_maps.

Local Open Scope string_scope.

(** ** Resources *)

Module Res.

(** Modelled from the spec: the resource-arithmetic library
    ([mesos/resources.hpp], [mesos/resource_quantities.hpp]) is not part of
    the sources. The spec assumes a value type supporting addition,
    subtraction and containment, which tells shared resources (identity
    semantics, reference counted) from non-shared ones (only the quantity
    matters) and projects to a scalar aggregate.

    A [Resource] describes one kind of resource. A non-shared resource is
    quantitative: a bundle holds some number of units of it. A shared resource
    is one instance of a fixed size: a bundle holds some number of copies. *)
Record Resource := mkResource {
  r_name : string;              (* "cpus", "mem", "disk", "ports", ... *)
  r_scalar : bool;              (* scalar valued, or ranges / sets *)
  r_tag : string;               (* role, reservation or volume identity *)
  r_shared : option positive    (* [Some size] for a shared instance *)
}.

#[global] Instance Resource_eq_dec : EqDecision Resource.
Proof. solve_decision. Defined.

#[global] Instance Resource_countable : Countable Resource.
Proof.
  refine (inj_countable'
    (fun r => (r_name r, r_scalar r, r_tag r, r_shared r))
    (fun t => match t with (n, s, g, h) => mkResource n s g h end) _).
  intros []; reflexivity.
Defined.

Definition isShared (r : Resource) : Prop := is_Some (r_shared r).
Definition isScalar (r : Resource) : Prop := r_scalar r = true.

#[global] Instance isShared_dec r : Decision (isShared r).
Proof. unfold isShared. apply _. Defined.
#[global] Instance isScalar_dec r : Decision (isScalar r).
Proof. unfold isScalar. apply _. Defined.

(** Modelled from the spec: a [Resources] value is a bag of resources. The
    multiplicity of a non-shared resource is its quantity (in the smallest
    unit), the multiplicity of a shared resource is its number of copies.
    [+=] is [⊎], [-=] is [∖], [contains] is [⊆] (or [∈] for one resource),
    [empty()] is [= ∅]. *)
Abbreviation Resources := (gmultiset Resource).

(** Modelled from the spec: [ResourceQuantities], a scalar quantity per
    resource name; names of quantity zero are absent. *)
Abbreviation ResourceQuantities := (gmultiset string).

Definition shared (X : Resources) : Resources := filter isShared X.
Definition nonShared (X : Resources) : Resources :=
  filter (fun r => ¬ isShared r) X.
Definition scalars (X : Resources) : Resources := filter isScalar X.

(** The quantity an entry of a bundle stands for: the amount held of a
    non-shared resource, the size of a shared instance whatever its number
    of copies. *)
Definition entryQuantity (r : Resource) (held : positive) : positive :=
  match r_shared r with
  | Some size => size
  | None => held
  end.

Definition once (X : Resources) : Resources :=
  GMultiSet (map_imap (fun r n => Some (entryQuantity r n)) (gmultiset_car X)).

(** Modelled from the spec: [ResourceQuantities::fromScalarResources], the
    sum per name over the entries of a bundle, every shared instance counted
    once. *)
Definition fromScalarResources (X : Resources) : ResourceQuantities :=
  gmultiset_map r_name (once X).

End Res.

Import Res.

(** ** The allocation ledger of a node *)

Module Allocation.

Abbreviation SlaveID := string.

(** [struct Allocation]: the resources held per agent and the cached scalar
    totals. *)
Record t := mk {
  resources : gmap SlaveID Resources;
  totals : ResourceQuantities
}.

Definition empty : t := mk ∅ ∅.

(** The fatal checks of the ledger, in the order of the source. *)
Inductive check :=
  | AgentPresent        (* CHECK(resources.contains(slaveId)) *)
  | ResourcesContained  (* CHECK(resources.at(slaveId).contains(..)) *)
  | TotalsContained.    (* CHECK(totals.contains(..)) *)

(** A call either returns the new ledger or dies on a check. *)
Inductive outcome :=
  | Ok (l : t)
  | Fatal (c : check).

Definition bind (o : outcome) (k : t -> outcome) : outcome :=
  match o with
  | Ok l => k l
  | Fatal c => Fatal c
  end.

(** [hashmap::operator[]]: reads the entry of [a], which is created empty
    when absent. [at_] is the value read, [touch] the map afterwards. *)
Definition at_ (a : SlaveID) (m : gmap SlaveID Resources) : Resources :=
  default ∅ (m !! a).

Definition touch (a : SlaveID) (m : gmap SlaveID Resources)
  : gmap SlaveID Resources :=
  <[a := at_ a m]> m.

(** [Allocation::add]. The filter runs its predicate, and with it
    [resources[slaveId]], once per shared entry of [toAdd]. *)
Definition add (slaveId : SlaveID) (toAdd : Resources) (l : t) : t :=
  let sharedToAdd :=
    filter (fun r => r ∉ at_ slaveId (resources l)) (shared toAdd) in
  let res1 :=
    if decide (shared toAdd = ∅) then resources l
    else touch slaveId (resources l) in
  let quantitiesToAdd :=
    fromScalarResources (scalars (nonShared toAdd ⊎ sharedToAdd)) in
  let res2 := <[slaveId := at_ slaveId res1 ⊎ toAdd]> res1 in
  mk res2 (totals l ⊎ quantitiesToAdd).

(** [Allocation::subtract]. *)
Definition subtract (slaveId : SlaveID) (toRemove : Resources) (l : t)
  : outcome :=
  match resources l !! slaveId with
  | None => Fatal AgentPresent
  | Some held =>
    if decide (toRemove ⊆ held) then
      let res1 := <[slaveId := held ∖ toRemove]> (resources l) in
      let sharedToRemove :=
        filter (fun r => r ∉ at_ slaveId res1) (shared toRemove) in
      let quantitiesToRemove :=
        fromScalarResources (scalars (nonShared toRemove ⊎ sharedToRemove)) in
      if decide (quantitiesToRemove ⊆ totals l) then
        let totals' := totals l ∖ quantitiesToRemove in
        if decide (at_ slaveId res1 = ∅)
        then Ok (mk (delete slaveId res1) totals')
        else Ok (mk res1 totals')
      else Fatal TotalsContained
    else Fatal ResourcesContained
  end.

(** [Allocation::update]. *)
Definition update (slaveId : SlaveID) (oldAllocation newAllocation : Resources)
    (l : t) : outcome :=
  let oldAllocationQuantities :=
    fromScalarResources (scalars oldAllocation) in
  let newAllocationQuantities :=
    fromScalarResources (scalars newAllocation) in
  match resources l !! slaveId with
  | None => Fatal AgentPresent
  | Some held =>
    if decide (oldAllocation ⊆ held) then
      if decide (oldAllocationQuantities ⊆ totals l) then
        let res1 := <[slaveId := held ∖ oldAllocation]> (resources l) in
        let res2 := <[slaveId := at_ slaveId res1 ⊎ newAllocation]> res1 in
        let res3 :=
          if decide (at_ slaveId res2 = ∅) then delete slaveId res2
          else res2 in
        Ok (mk res3 (totals l ∖ oldAllocationQuantities ⊎ newAllocationQuantities))
      else Fatal TotalsContained
    else Fatal ResourcesContained
  end.

(** The shared-aware scalar aggregate of a per-agent map: the quantities of
    every agent's bundle, each shared instance counted once per agent. *)
Definition aggregate (m : gmap SlaveID Resources) : ResourceQuantities :=
  map_fold (fun _ held acc => fromScalarResources (scalars held) ⊎ acc) ∅ m.

(** The cached totals agree with the per-agent map. *)
Definition consistent (l : t) : Prop := totals l = aggregate (resources l).

(** Ledgers built from the empty one by [add] and [subtract] alone. *)
Inductive built : t -> Prop :=
  | built_empty : built empty
  | built_add a d l : built l -> built (add a d l)
  | built_subtract a d l l' : built l -> subtract a d l = Ok l' -> built l'.

(** Ledgers the three mutators can reach from the empty one. *)
Inductive reachable : t -> Prop :=
  | reach_empty : reachable empty
  | reach_add a d l : reachable l -> reachable (add a d l)
  | reach_subtract a d l l' :
      reachable l -> subtract a d l = Ok l' -> reachable l'
  | reach_update a o n l l' :
      reachable l -> update a o n l = Ok l' -> reachable l'.

(** No agent has an entry that holds nothing. *)
Definition noEmptyEntry (l : t) : Prop :=
  ∀ a held, resources l !! a = Some held → held ≠ ∅.

End Allocation.

(** ** The nodes of the sorter tree *)

Module Node.

(** Nodes live in a store and refer to each other by address; [None] is
    [nullptr]. *)
Abbreviation ptr := positive.

Inductive Kind := ACTIVE_LEAF | INACTIVE_LEAF | INTERNAL.

#[global] Instance Kind_eq_dec : EqDecision Kind.
Proof. solve_decision. Defined.

(** [struct Node]. *)
Record t := mk {
  name : string;
  path : string;
  weight : option Qc;
  kind : Kind;
  parent : option ptr;
  children : list ptr;
  allocation : Allocation.t
}.

Abbreviation store := (gmap ptr t).

(** Modelled from the spec: [strings::join] of stout is not part of the
    sources; joining two strings puts the separator between them. *)
Definition join (sep a b : string) : string := a +:+ sep +:+ b.

(** The join of a list of segments. *)
Fixpoint joinAll (sep : string) (segments : list string) : string :=
  match segments with
  | [] => ""
  | [x] => x
  | x :: rest => x +:+ sep +:+ joinAll sep rest
  end.

(** The constructor [Node(_name, _kind, _parent)]. It reads the parent, so a
    parent address that is not in the store gives no node. *)
Definition new (h : store) (_name : string) (_kind : Kind)
    (_parent : option ptr) : option t :=
  match _parent with
  | None => Some (mk _name "" None _kind None [] Allocation.empty)
  | Some p =>
    match h !! p with
    | None => None
    | Some pn =>
      let path :=
        match parent pn with
        | None => _name
        | Some _ => join "/" (path pn) _name
        end in
      Some (mk _name path None _kind _parent [] Allocation.empty)
    end
  end.

Definition leafKind (k : Kind) : bool :=
  match k with
  | ACTIVE_LEAF | INACTIVE_LEAF => true
  | INTERNAL => false
  end.

(** [clientPath()]; [None] when one of its two checks fails. *)
Definition clientPath (h : store) (n : t) : option string :=
  if decide (name n = ".") then
    if leafKind (kind n) then
      match parent n with
      | None => None
      | Some p => path <$> h !! p
      end
    else None
  else Some (path n).

(** [isLeaf()]; [None] when its check fails. *)
Definition isLeaf (n : t) : option bool :=
  if leafKind (kind n) then
    if decide (children n = []) then Some true else None
  else Some false.

Definition setChildren (n : t) (cs : list ptr) : t :=
  mk (name n) (path n) (weight n) (kind n) (parent n) cs (allocation n).

(** [children.erase(it)] for the first position holding [child]. *)
Fixpoint eraseFirst (child : ptr) (cs : list ptr) : list ptr :=
  match cs with
  | [] => []
  | c :: rest => if decide (c = child) then rest else c :: eraseFirst child rest
  end.

(** [removeChild(child)] on the node at [self]; [None] when the check
    fails. *)
Definition removeChild (self child : ptr) (h : store) : option store :=
  match h !! self with
  | None => None
  | Some n =>
    if decide (child ∈ children n)
    then Some (<[self := setChildren n (eraseFirst child (children n))]> h)
    else None
  end.

(** [addChild(child)] on the node at [self]; [None] when the check fails. *)
Definition addChild (self child : ptr) (h : store) : option store :=
  match h !! self, h !! child with
  | Some n, Some c =>
    if decide (child ∈ children n) then None
    else
      let cs :=
        match kind c with
        | INACTIVE_LEAF => (children n ++ [child])%list
        | _ => child :: children n
        end in
      Some (<[self := setChildren n cs]> h)
  | _, _ => None
  end.

(** The kind of the node at an address. *)
Definition kindAt (h : store) (p : ptr) : option Kind := kind <$> h !! p.

(** The ordering invariant of a [children] vector: no inactive leaf comes
    before an active leaf or an internal node. *)
Definition inactiveLast (h : store) (cs : list ptr) : Prop :=
  ∀ i j ci cj,
    (i < j)%nat → cs !! i = Some ci → cs !! j = Some cj →
    kindAt h ci = Some INACTIVE_LEAF → kindAt h cj = Some INACTIVE_LEAF.

Definition ordered (h : store) : Prop :=
  ∀ p n, h !! p = Some n → inactiveLast h (children n).

Definition duplicateFree (h : store) : Prop :=
  ∀ p n, h !! p = Some n → NoDup (children n).

(** The names on the walk from the root down to a node, the root's own name
    left out. *)
Inductive walk (h : store) : ptr -> list string -> Prop :=
  | walk_root p n :
      h !! p = Some n -> parent n = None -> walk h p []
  | walk_child p n q segments :
      h !! p = Some n -> parent n = Some q -> walk h q segments ->
      walk h p (segments ++ [name n])%list.

(** Every address in a [children] vector is in the store. *)
Definition closed (h : store) : Prop :=
  ∀ p n c, h !! p = Some n → c ∈ children n → is_Some (h !! c).

(** Stores grown from the empty one by constructing nodes at unused
    addresses and by the two mutators of [children]. *)
Inductive grown : store -> Prop :=
  | grown_empty : grown ∅
  | grown_new h p _name _kind _parent n :
      grown h -> h !! p = None -> new h _name _kind _parent = Some n ->
      grown (<[p := n]> h)
  | grown_addChild h self child h' :
      grown h -> addChild self child h = Some h' -> grown h'
  | grown_removeChild h self child h' :
      grown h -> removeChild self child h = Some h' -> grown h'.








(** Every node in a [children] vector is in the store and has the holder of
    the vector as its parent. *)
Definition parentLinked (h : store) : Prop :=
  ∀ p n c, h !! p = Some n → c ∈ children n →
    ∃ cn, h !! c = Some cn ∧ parent cn = Some p.



(** The tree of the source's example: clients "a" and "a/b" give the root,
    the internal node "a", the virtual leaf "a/." and the leaf "a/b". *)
Definition example : store :=
  {[ 1%positive := mk "" "" None INTERNAL None [2%positive] Allocation.empty;
     2%positive := mk "a" "a" None INTERNAL (Some 1%positive)
                     [4%positive; 3%positive] Allocation.empty;
     3%positive := mk "." "a/." None INACTIVE_LEAF (Some 2%positive) []
                     Allocation.empty;
     4%positive := mk "b" "a/b" None ACTIVE_LEAF (Some 2%positive) []
                     Allocation.empty ]}.

(** Every cached path is the "/"-join of the names on the walk from the
    root. *)
Definition pathsJoined (h : store) : Prop :=
  ∀ p n, h !! p = Some n →
    ∃ segments, walk h p segments ∧ path n = joinAll "/" segments.

End Node.

(** ** Relative weights *)

Module Weights.

(** Modelled from the spec: [SortInfo::updateRelativeWeights] and
    [RandomSorter::getWeight] are defined in sorter.cpp, which is not part of
    the sources. The model follows section 4.3 of the spec and takes weights
    as exact rationals; the rounding of [double] is not modelled.

    A tree carries, at every node, the weight [getWeight] returns for it; a
    leaf is active or inactive. *)
#[warnings="-register-all"]
Inductive tree :=
  | Leaf (active : bool) (w : Qc)
  | Inner (w : Qc) (children : list tree).

Definition getWeight (t : tree) : Qc :=
  match t with
  | Leaf _ w => w
  | Inner w _ => w
  end.

(** A node is active-through when it is an active leaf or has an active leaf
    below it. *)
Fixpoint hasActive (t : tree) : bool :=
  match t with
  | Leaf active _ => active
  | Inner _ cs => existsb hasActive cs
  end.

Definition sum (l : list Qc) : Qc := foldr Qcplus 0%Qc l.
Definition product (l : list Qc) : Qc := foldr Qcmult 1%Qc l.

(** The denominator at a node: the weights of its active-through children. *)
Definition activeTotal (cs : list tree) : Qc :=
  sum (getWeight <$> filter (fun c => hasActive c = true) cs).

(** Modelled from the spec: what recomputation caches. Starting at the root
    with share 1, a node hands each active-through child [c] the part
    [getWeight c / activeTotal] of its own share; the share that arrives at
    an active leaf is its relative weight. The result lists the active leaves
    in the order of the tree. *)
Fixpoint relativeWeights (t : tree) (share : Qc) : list Qc :=
  match t with
  | Leaf active _ => if active then [share] else []
  | Inner _ cs =>
    flat_map (fun c =>
      if hasActive c
      then relativeWeights c (share * (getWeight c / activeTotal cs))%Qc
      else []) cs
  end.

(** Modelled from the spec: for every active leaf, in the order of the tree,
    the shares [getWeight v / activeTotal] of the nodes [v] on the walk from
    the root to the leaf, the root left out. *)
Fixpoint ancestorShares (t : tree) (above : list Qc) : list (list Qc) :=
  match t with
  | Leaf active _ => if active then [above] else []
  | Inner _ cs =>
    flat_map (fun c =>
      if hasActive c
      then ancestorShares c (above ++ [(getWeight c / activeTotal cs)%Qc])
      else []) cs
  end.

(** Every weight in the tree is positive. *)
Fixpoint weightsPositive (t : tree) : Prop :=
  match t with
  | Leaf _ w => (0 < w)%Qc
  | Inner w cs =>
    (0 < w)%Qc ∧ foldr (fun c P => weightsPositive c ∧ P) True cs
  end.

(** The hierarchy of the spec's scenario 5: team (weight 2) with alice and
    bob, and solo, all active. *)
Definition team : tree := Inner (Q2Qc 2) [Leaf true 1%Qc; Leaf true 1%Qc].
Definition hierarchy : tree := Inner 1%Qc [team; Leaf true 1%Qc].

(** A sorter without clients. *)
Definition noClients : tree := Inner 1%Qc [].

End Weights.

(** ** A concrete ledger history

    The shared-resource scenario of the spec: a shared disk of size 10 on
    agent A, allocated twice to one client. *)

Module Scenario.

Import Allocation.

Definition D : Resource := mkResource "disk" true "volume-1" (Some 10%positive).
Definition cpu : Resource := mkResource "cpus" true "*" None.

Definition oneD : Resources := {[+ D +]}.
Definition twoD : Resources := oneD ⊎ oneD.
Definition oneCpu : Resources := {[+ cpu +]}.

Definition twoCopies : Allocation.t := add "A" oneD (add "A" oneD empty).

(** One copy of [D] is left on A, the totals no longer count it. *)
Definition staleTotals : Allocation.t := mk {[ "A" := oneD ]} ∅.

(** A holds nothing, but has an entry. *)
Definition emptyEntry : Allocation.t := add "A" ∅ empty.

(** Two copies of [D] and one cpu on A. *)
Definition mixed : Allocation.t := add "A" oneCpu twoCopies.

End Scenario.

(** ** Facts about the resource model *)

Implicit Types (r : Resource) (X Y : Resources).

Lemma multiplicity_once r X :
  multiplicity r (once X) =
    match r_shared r with
    | Some size => if decide (r ∈ X) then Pos.to_nat size else 0
    | None => multiplicity r X
    end.
Proof.
  assert (Hin : r ∈ X ↔ is_Some (gmultiset_car X !! r)).
  { rewrite elem_of_multiplicity. unfold multiplicity.
    destruct (gmultiset_car X !! r); split; intros; try lia; eauto.
    by destruct H as [? ?]. }
  unfold multiplicity at 1. unfold once, entryQuantity. simpl.
  rewrite map_lookup_imap. unfold multiplicity.
  destruct (gmultiset_car X !! r) as [n|]; simpl; destruct (r_shared r);
    try done; case_decide as Hd; try done; rewrite Hin in Hd.
  - destruct Hd; eauto.
  - by destruct Hd.
Qed.

Lemma not_isShared r : ¬ isShared r ↔ r_shared r = None.
Proof. unfold isShared. rewrite eq_None_not_Some. done. Qed.

Lemma isShared_Some r size : r_shared r = Some size → isShared r.
Proof. unfold isShared. intros ->. eauto. Qed.

(** Equations and inclusions of sums of bags, compared pointwise. *)
Ltac bag_solver :=
  try apply gmultiset_eq;
  let x := fresh "x" in
  intros x;
  repeat match goal with
  | H : _ ⊆ _ |- _ => specialize (H x)
  end;
  repeat first
    [ rewrite multiplicity_disj_union in *
    | rewrite multiplicity_difference in *
    | rewrite multiplicity_empty in * ];
  lia.

(** Pointwise reading of multiplicities in the projections. *)
Ltac res_pointwise :=
  unfold scalars, shared, nonShared in *;
  repeat first
    [ rewrite multiplicity_disj_union
    | rewrite multiplicity_difference
    | rewrite multiplicity_filter
    | rewrite multiplicity_once ].

Ltac res_cases r :=
  let size := fresh "size" in
  let Hs := fresh "Hs" in
  destruct (r_shared r) as [size|] eqn:Hs;
  [ pose proof (isShared_Some _ _ Hs) | apply not_isShared in Hs ];
  repeat case_decide; try lia; exfalso; set_unfold; tauto.

Lemma once_scalars_add X Y :
  once (scalars (X ⊎ Y)) =
  once (scalars X) ⊎
  once (scalars (nonShared Y ⊎ filter (fun r => r ∉ X) (shared Y))).
Proof. apply gmultiset_eq. intros r. res_pointwise. res_cases r. Qed.

Lemma once_scalars_sub X Y :
  Y ⊆ X →
  once (scalars X) =
  once (scalars (X ∖ Y)) ⊎
  once (scalars (nonShared Y ⊎ filter (fun r => r ∉ X ∖ Y) (shared Y))).
Proof.
  intros Hsub. apply gmultiset_eq. intros r. specialize (Hsub r).
  res_pointwise.
  destruct (r_shared r) as [size|] eqn:Hs;
    [ pose proof (isShared_Some _ _ Hs) | apply not_isShared in Hs ];
    repeat case_decide; try lia; exfalso;
    rewrite ?gmultiset_elem_of_filter, ?gmultiset_elem_of_disj_union,
      ?gmultiset_elem_of_filter, ?elem_of_multiplicity,
      ?multiplicity_difference in *; intuition lia.
Qed.

Lemma once_scalars_mono X Y : X ⊆ Y → once (scalars X) ⊆ once (scalars Y).
Proof.
  intros Hsub r. specialize (Hsub r).
  res_pointwise.
  destruct (r_shared r); repeat case_decide; try lia; exfalso;
    rewrite ?gmultiset_elem_of_filter, ?elem_of_multiplicity in *;
    intuition lia.
Qed.

Lemma gmultiset_map_mono `{Countable A, Countable B} (f : A → B)
    (U V : gmultiset A) :
  U ⊆ V → gmultiset_map f U ⊆ gmultiset_map f V.
Proof.
  intros Hsub. rewrite (gmultiset_disj_union_difference U V Hsub).
  rewrite gmultiset_map_disj_union. multiset_solver.
Qed.

(** The three laws of the projection to quantities that the ledger needs. *)
Lemma quantities_add X Y :
  fromScalarResources (scalars (X ⊎ Y)) =
  fromScalarResources (scalars X) ⊎
  fromScalarResources
    (scalars (nonShared Y ⊎ filter (fun r => r ∉ X) (shared Y))).
Proof.
  unfold fromScalarResources.
  by rewrite once_scalars_add, gmultiset_map_disj_union.
Qed.

Lemma quantities_sub X Y :
  Y ⊆ X →
  fromScalarResources (scalars X) =
  fromScalarResources (scalars (X ∖ Y)) ⊎
  fromScalarResources
    (scalars (nonShared Y ⊎ filter (fun r => r ∉ X ∖ Y) (shared Y))).
Proof.
  intros Hsub. unfold fromScalarResources.
  by rewrite (once_scalars_sub X Y Hsub), gmultiset_map_disj_union.
Qed.

Lemma quantities_mono X Y :
  X ⊆ Y → fromScalarResources (scalars X) ⊆ fromScalarResources (scalars Y).
Proof. intros. by apply gmultiset_map_mono, once_scalars_mono. Qed.

Lemma once_scalars_replace X Y Z :
  Y ⊆ X → shared Y = shared Z →
  once (scalars (X ∖ Y ⊎ Z)) ⊎ once (scalars Y) =
  once (scalars X) ⊎ once (scalars Z).
Proof.
  intros Hsub Hsh. apply gmultiset_eq. intros r. specialize (Hsub r).
  apply (f_equal (multiplicity r)) in Hsh. unfold shared in Hsh.
  rewrite !multiplicity_filter in Hsh.
  res_pointwise.
  destruct (r_shared r) as [size|] eqn:Hs;
    [ pose proof (isShared_Some _ _ Hs) | apply not_isShared in Hs ];
    repeat case_decide; try lia; exfalso;
    rewrite ?gmultiset_elem_of_filter, ?elem_of_multiplicity,
      ?multiplicity_disj_union, ?multiplicity_difference in *;
    intuition lia.
Qed.

(** Replacing a part of a bundle changes its quantities by those of the two
    parts, provided the shared resources put back are those taken away. *)
Lemma quantities_replace X Y Z :
  Y ⊆ X → shared Y = shared Z →
  fromScalarResources (scalars (X ∖ Y ⊎ Z)) =
  fromScalarResources (scalars X) ∖ fromScalarResources (scalars Y)
    ⊎ fromScalarResources (scalars Z).
Proof.
  intros Hsub Hsh.
  pose proof (quantities_mono Y X Hsub) as Hle.
  pose proof (f_equal (gmultiset_map r_name)
                (once_scalars_replace X Y Z Hsub Hsh)) as He.
  rewrite !gmultiset_map_disj_union in He. fold (fromScalarResources) in He.
  unfold fromScalarResources in *.
  apply gmultiset_eq. intros x. specialize (Hle x).
  apply (f_equal (multiplicity x)) in He.
  rewrite !multiplicity_disj_union in He.
  rewrite multiplicity_disj_union, multiplicity_difference. lia.
Qed.

Lemma quantities_empty : fromScalarResources (scalars ∅) = ∅.
Proof. reflexivity. Qed.

Lemma gmultiset_map_scalar_mul `{Countable A, Countable B} (f : A → B)
    (k : nat) (U : gmultiset A) :
  gmultiset_map f (k *: U) = k *: gmultiset_map f U.
Proof.
  induction k as [|k IH].
  - by rewrite !gmultiset_scalar_mul_0, gmultiset_map_empty.
  - by rewrite !gmultiset_scalar_mul_S_l, gmultiset_map_disj_union, IH.
Qed.

(** A bundle of copies of one shared scalar resource stands for the size of
    the instance, whatever the number of copies. *)
Lemma quantities_shared_copies r size (k : nat) :
  r_shared r = Some size → isScalar r → k ≠ 0%nat →
  fromScalarResources (scalars (k *: {[+ r +]})) =
  Pos.to_nat size *: {[+ r_name r +]}.
Proof.
  intros Hs Hsc Hk. unfold fromScalarResources.
  assert (once (scalars (k *: {[+ r +]})) = Pos.to_nat size *: {[+ r +]})
    as ->.
  { apply gmultiset_eq. intros r'. res_pointwise.
    rewrite !multiplicity_scalar_mul.
    destruct (decide (r' = r)) as [->|Hne].
    - rewrite Hs, multiplicity_singleton_eq.
      rewrite decide_True; [lia|].
      apply gmultiset_elem_of_filter. split; [done|].
      apply gmultiset_elem_of_scalar_mul. split; [done|].
      by apply gmultiset_elem_of_singleton.
    - rewrite (multiplicity_singleton_ne r' r Hne).
      destruct (r_shared r').
      + rewrite decide_False; [lia|].
        rewrite gmultiset_elem_of_filter, gmultiset_elem_of_scalar_mul,
          gmultiset_elem_of_singleton. tauto.
      + case_decide; lia. }
  by rewrite gmultiset_map_scalar_mul, gmultiset_map_singleton.
Qed.


(** ** Facts about the ledger *)

Section LedgerFacts.

Import Allocation.

Implicit Types (a : SlaveID) (m : gmap SlaveID Resources) (l : Allocation.t).
Implicit Types (d : Resources).

Lemma at_insert_eq a X m : at_ a (<[a := X]> m) = X.
Proof. unfold at_. by rewrite lookup_insert_eq. Qed.

Lemma at_insert_ne a a' X m : a ≠ a' → at_ a' (<[a := X]> m) = at_ a' m.
Proof. intros. unfold at_. by rewrite lookup_insert_ne. Qed.

Lemma at_Some a X m : m !! a = Some X → at_ a m = X.
Proof. unfold at_. by intros ->. Qed.

Lemma at_None a m : m !! a = None → at_ a m = ∅.
Proof. unfold at_. by intros ->. Qed.

Lemma at_touch a a' m : at_ a' (touch a m) = at_ a' m.
Proof.
  unfold touch. destruct (decide (a = a')) as [->|].
  - apply at_insert_eq.
  - by apply at_insert_ne.
Qed.

Lemma at_delete_eq a m : at_ a (delete a m) = ∅.
Proof. unfold at_. by rewrite lookup_delete_eq. Qed.

Lemma at_delete_ne a a' m : a ≠ a' → at_ a' (delete a m) = at_ a' m.
Proof. intros. unfold at_. by rewrite lookup_delete_ne. Qed.

(** The entry created by [operator[]] inside the filter of [add] is
    overwritten by the [+=] that follows. *)
Lemma add_resources a d l :
  resources (add a d l) = <[a := at_ a (resources l) ⊎ d]> (resources l).
Proof.
  unfold add. simpl. case_decide; [done|].
  rewrite at_touch. unfold touch. by rewrite insert_insert_eq.
Qed.

Lemma add_totals a d l :
  totals (add a d l) =
  totals l ⊎ fromScalarResources (scalars
    (nonShared d ⊎ filter (fun r => r ∉ at_ a (resources l)) (shared d))).
Proof. reflexivity. Qed.

Lemma aggregate_empty : aggregate ∅ = ∅.
Proof. unfold aggregate. by rewrite map_fold_empty. Qed.

Lemma aggregate_insert a X m :
  m !! a = None →
  aggregate (<[a := X]> m) = fromScalarResources (scalars X) ⊎ aggregate m.
Proof.
  intros. unfold aggregate. rewrite map_fold_insert_L; [done| |done].
  intros. multiset_solver.
Qed.

Lemma aggregate_delete a X m :
  m !! a = Some X →
  aggregate m = fromScalarResources (scalars X) ⊎ aggregate (delete a m).
Proof.
  intros. unfold aggregate. rewrite (map_fold_delete_L _ _ a X m); [done| |done].
  intros. multiset_solver.
Qed.

Lemma aggregate_at a m :
  aggregate m =
  fromScalarResources (scalars (at_ a m)) ⊎ aggregate (delete a m).
Proof.
  destruct (m !! a) as [X|] eqn:Hm.
  - rewrite (at_Some _ _ _ Hm). by apply aggregate_delete.
  - rewrite (at_None _ _ Hm), quantities_empty, delete_id by done.
    multiset_solver.
Qed.

Lemma aggregate_insert_any a X m :
  aggregate (<[a := X]> m) =
  fromScalarResources (scalars X) ⊎ aggregate (delete a m).
Proof.
  rewrite <-insert_delete_eq. apply aggregate_insert, lookup_delete_eq.
Qed.

Lemma aggregate_contains a X m :
  m !! a = Some X → fromScalarResources (scalars X) ⊆ aggregate m.
Proof. intros Hm. rewrite (aggregate_delete _ _ _ Hm). multiset_solver. Qed.

Lemma consistent_empty : consistent empty.
Proof. unfold consistent. simpl. by rewrite aggregate_empty. Qed.

Lemma consistent_add a d l : consistent l → consistent (add a d l).
Proof.
  unfold consistent. intros Hl.
  rewrite add_totals, add_resources, aggregate_insert_any, Hl.
  rewrite (aggregate_at a (resources l)).
  rewrite (quantities_add (at_ a (resources l)) d).
  bag_solver.
Qed.

(** What [subtract] returns once its three checks pass. *)
Lemma subtract_Ok a d l held :
  resources l !! a = Some held →
  d ⊆ held →
  let q := fromScalarResources (scalars
    (nonShared d ⊎ filter (fun r => r ∉ held ∖ d) (shared d))) in
  q ⊆ totals l →
  subtract a d l =
  Ok (mk (if decide (held ∖ d = ∅) then delete a (resources l)
          else <[a := held ∖ d]> (resources l))
         (totals l ∖ q)).
Proof.
  intros Hm Hsub q Hq. unfold subtract. rewrite Hm.
  rewrite decide_True by done. rewrite at_insert_eq.
  fold q. rewrite decide_True by done.
  case_decide; [|done]. by rewrite delete_insert_eq.
Qed.

Lemma subtract_inv a d l l' :
  subtract a d l = Ok l' →
  ∃ held, resources l !! a = Some held ∧ d ⊆ held ∧
    fromScalarResources (scalars
      (nonShared d ⊎ filter (fun r => r ∉ held ∖ d) (shared d))) ⊆ totals l.
Proof.
  unfold subtract. destruct (resources l !! a) as [held|]; [|done].
  case_decide; [|done]. rewrite at_insert_eq. case_decide; [|done].
  eauto.
Qed.

Lemma consistent_subtract a d l l' :
  consistent l → subtract a d l = Ok l' → consistent l'.
Proof.
  unfold consistent. intros Hl Hs.
  destruct (subtract_inv _ _ _ _ Hs) as (held & Hm & Hsub & Hq).
  rewrite (subtract_Ok _ _ _ _ Hm Hsub Hq) in Hs. injection Hs as <-. simpl.
  rewrite Hl, (aggregate_delete _ _ _ Hm), (quantities_sub held d Hsub).
  case_decide as He.
  - rewrite He at 1. rewrite quantities_empty. multiset_solver.
  - rewrite aggregate_insert_any. multiset_solver.
Qed.

(** What [update] returns once its three checks pass. *)
Lemma update_Ok a o n l held :
  resources l !! a = Some held →
  o ⊆ held →
  fromScalarResources (scalars o) ⊆ totals l →
  update a o n l =
  Ok (mk (if decide (held ∖ o ⊎ n = ∅) then delete a (resources l)
          else <[a := held ∖ o ⊎ n]> (resources l))
         (totals l ∖ fromScalarResources (scalars o)
            ⊎ fromScalarResources (scalars n))).
Proof.
  intros Hm Hsub Hq. unfold update. rewrite Hm.
  rewrite !decide_True by done. rewrite !at_insert_eq, insert_insert_eq.
  case_decide; [|done]. by rewrite delete_insert_eq.
Qed.

Lemma update_inv a o n l l' :
  update a o n l = Ok l' →
  ∃ held, resources l !! a = Some held ∧ o ⊆ held ∧
    fromScalarResources (scalars o) ⊆ totals l.
Proof.
  unfold update. destruct (resources l !! a) as [held|]; [|done].
  case_decide; [|done]. case_decide; [|done]. eauto.
Qed.

(** [update] keeps the totals in step when it puts the same shared resources
    back as it takes away. *)
Lemma consistent_update a o n l l' :
  shared o = shared n →
  consistent l → update a o n l = Ok l' → consistent l'.
Proof.
  unfold consistent. intros Hsh Hl Hu.
  destruct (update_inv _ _ _ _ _ Hu) as (held & Hm & Hsub & Hq).
  rewrite (update_Ok _ _ _ _ _ Hm Hsub Hq) in Hu. injection Hu as <-.
  cbn [totals resources].
  pose proof (quantities_mono o held Hsub) as Hle.
  pose proof (quantities_replace held o n Hsub Hsh) as Hrep.
  rewrite Hl, (aggregate_delete _ _ _ Hm).
  assert (Hagg :
    aggregate (if decide (held ∖ o ⊎ n = ∅) then delete a (resources l)
               else <[a := held ∖ o ⊎ n]> (resources l))
    = fromScalarResources (scalars (held ∖ o ⊎ n))
        ⊎ aggregate (delete a (resources l))).
  { case_decide as He.
    - rewrite He, quantities_empty. by rewrite (left_id_L ∅ (⊎)).
    - apply aggregate_insert_any. }
  rewrite Hagg, Hrep. bag_solver.
Qed.

Lemma built_consistent l : built l → consistent l.
Proof.
  induction 1; eauto using consistent_empty, consistent_add,
    consistent_subtract.
Qed.

Lemma built_reachable l : built l → reachable l.
Proof. induction 1; eauto using reachable. Qed.

End LedgerFacts.

(** ** Facts about the concrete history *)

Section ScenarioFacts.

Import Allocation Scenario.

Implicit Types (a : SlaveID) (l : Allocation.t) (d o : Resources).

Lemma D_shared : isShared D.
Proof. unfold isShared. simpl. eauto. Qed.

Lemma D_not_cpu : cpu ≠ D.
Proof. discriminate. Qed.

Lemma consistent_twoCopies : consistent twoCopies.
Proof.
  apply built_consistent. unfold twoCopies.
  apply built_add, built_add, built_empty.
Qed.

Lemma consistent_mixed : consistent mixed.
Proof. apply consistent_add, consistent_twoCopies. Qed.

Lemma lookup_twoCopies : resources twoCopies !! "A" = Some twoD.
Proof.
  unfold twoCopies. rewrite !add_resources, lookup_insert_eq, at_insert_eq.
  rewrite (at_None "A" (resources empty)) by apply lookup_empty.
  by rewrite (left_id_L ∅ (⊎)).
Qed.

Lemma lookup_mixed : resources mixed !! "A" = Some (twoD ⊎ oneCpu).
Proof.
  unfold mixed. rewrite add_resources, lookup_insert_eq.
  by rewrite (at_Some _ _ _ lookup_twoCopies).
Qed.

Lemma cpu_not_shared : ¬ isShared cpu.
Proof. by intros [? ?]. Qed.

Lemma shared_oneCpu : shared oneCpu = ∅.
Proof.
  unfold shared, oneCpu.
  by rewrite (gmultiset_filter_singleton_False _ _ cpu_not_shared).
Qed.

Lemma two_copies_held : (2 ≤ multiplicity D twoD)%nat.
Proof.
  unfold twoD, oneD.
  rewrite multiplicity_disj_union, multiplicity_singleton_eq. lia.
Qed.

Lemma nonempty_of_elem (r : Resource) (X : Resources) : r ∈ X → X ≠ ∅.
Proof. intros Hin ->. by apply gmultiset_not_elem_of_empty in Hin. Qed.

(** The totals of a ledger in step contain what any part of an agent's
    bundle stands for. *)
Lemma quantities_within_totals a o l (held : Resources) :
  consistent l → resources l !! a = Some held → o ⊆ held →
  fromScalarResources (scalars o) ⊆ totals l.
Proof.
  intros Hc Hm Hsub. rewrite Hc. etrans; [by apply quantities_mono|].
  by apply aggregate_contains with a.
Qed.

(** [subtract] right after [add] of the same bundle returns. *)
Lemma subtract_after_add a d l : ∃ l', subtract a d (add a d l) = Ok l'.
Proof.
  assert (Hm : resources (add a d l) !! a
               = Some (at_ a (resources l) ⊎ d)).
  { rewrite add_resources. apply lookup_insert_eq. }
  assert (Hsub : d ⊆ at_ a (resources l) ⊎ d) by multiset_solver.
  assert (Hback : (at_ a (resources l) ⊎ d) ∖ d = at_ a (resources l))
    by bag_solver.
  eexists. apply (subtract_Ok a d (add a d l) _ Hm Hsub).
  rewrite Hback, add_totals. bag_solver.
Qed.

Lemma lookup_twoCopies_other : resources twoCopies !! "B" = None.
Proof.
  unfold twoCopies. rewrite !add_resources.
  rewrite !lookup_insert_ne by discriminate. apply lookup_empty.
Qed.

Lemma twoD_nonempty : twoD ≠ ∅.
Proof.
  apply (nonempty_of_elem D), elem_of_multiplicity.
  pose proof two_copies_held. lia.
Qed.

Lemma oneD_in_twoD : oneD ⊆ twoD.
Proof. intros x. unfold twoD. rewrite multiplicity_disj_union. lia. Qed.

(** The stale ledger: its totals hold nothing, so they contain neither the
    quantities of the copy that is left nor what [subtract] would remove for
    it. *)
Lemma lookup_staleTotals : resources staleTotals !! "A" = Some oneD.
Proof. reflexivity. Qed.

Lemma stale_lacks_old :
  ¬ fromScalarResources (scalars oneD) ⊆ totals staleTotals.
Proof. apply (bool_decide_unpack _). vm_compute. exact I. Qed.

Lemma stale_lacks_last_copy :
  ¬ fromScalarResources (scalars
      (nonShared oneD ⊎ filter (fun r => r ∉ oneD ∖ oneD) (shared oneD)))
    ⊆ totals staleTotals.
Proof. apply (bool_decide_unpack _). vm_compute. exact I. Qed.

Lemma cpu_not_in_twoD : ¬ oneCpu ⊆ twoD.
Proof.
  intros H. specialize (H cpu). unfold oneCpu, twoD, oneD in H.
  rewrite multiplicity_singleton_eq, multiplicity_disj_union,
    (multiplicity_singleton_ne cpu D D_not_cpu) in H. lia.
Qed.

End ScenarioFacts.

(** ** The ledger claims *)

Section LedgerClaims.

Import Allocation Scenario.

Implicit Types (a : SlaveID) (l : Allocation.t) (d : Resources).

Lemma copy_of_held_adds_nothing (r : Resource) (X : Resources) :
  isShared r → r ∈ X →
  nonShared {[+ r +]} ⊎ filter (fun r' => r' ∉ X) (shared {[+ r +]}) = ∅.
Proof.
  intros Hs Hin. apply gmultiset_eq. intros r'.
  res_pointwise. rewrite multiplicity_empty.
  destruct (decide (r' = r)) as [->|Hne].
  - repeat case_decide; try lia; tauto.
  - rewrite (multiplicity_singleton_ne r' r Hne). repeat case_decide; lia.
Qed.

(** C1. [allocated] raises the totals by the scalar quantities of the
    non-shared part of the bundle plus those of its shared resources that the
    agent did not hold before, and adds the bundle to the agent's resources.
    A further copy of a shared resource the agent already holds leaves the
    totals as they are, while the agent holds one copy more. *)
Theorem allocated_counts_new_shared_once a d l :
  let before := at_ a (resources l) in
  totals (add a d l) =
    totals l ⊎ fromScalarResources (scalars
      (nonShared d ⊎ filter (fun r => r ∉ before) (shared d)))
  ∧ resources (add a d l) = <[a := before ⊎ d]> (resources l)
  ∧ ∀ r, isShared r → r ∈ before →
      totals (add a {[+ r +]} l) = totals l
      ∧ multiplicity r (at_ a (resources (add a {[+ r +]} l)))
        = S (multiplicity r before).
Proof.
  intros before. split; [apply add_totals|]. split; [apply add_resources|].
  intros r Hs Hin. split.
  - rewrite add_totals. fold before.
    rewrite (copy_of_held_adds_nothing r before Hs Hin).
    rewrite quantities_empty. bag_solver.
  - rewrite add_resources, at_insert_eq. fold before.
    rewrite multiplicity_disj_union, multiplicity_singleton_eq. lia.
Qed.

Lemma allocated_counts_new_shared_once_witness :
  isShared D ∧ D ∈ at_ "A" (resources twoCopies) ∧
  totals (add "A" oneD twoCopies) = totals twoCopies ∧
  multiplicity D (at_ "A" (resources (add "A" oneD twoCopies))) = 3.
Proof.
  assert (Hs : isShared D) by exact D_shared.
  assert (Hin : D ∈ at_ "A" (resources twoCopies)).
  { rewrite (at_Some _ _ _ lookup_twoCopies). apply elem_of_multiplicity.
    pose proof two_copies_held. lia. }
  split; [exact Hs|]. split; [exact Hin|].
  destruct (allocated_counts_new_shared_once "A" ∅ twoCopies) as (_ & _ & H).
  destruct (H D Hs Hin) as [Ht Hm]. split; [exact Ht|].
  unfold oneD. rewrite Hm, (at_Some _ _ _ lookup_twoCopies).
  unfold twoD, oneD.
  rewrite multiplicity_disj_union, multiplicity_singleton_eq. reflexivity.
Defined.

Lemma reachable_twoCopies : reachable twoCopies.
Proof. unfold twoCopies. eauto using reachable. Qed.

Lemma reachable_staleTotals : reachable staleTotals.
Proof.
  apply (reach_update "A" oneD ∅ twoCopies); [apply reachable_twoCopies|].
  vm_compute. reflexivity.
Qed.

Lemma last_copy_stays (r : Resource) (X : Resources) :
  isShared r → (2 ≤ multiplicity r X)%nat →
  nonShared {[+ r +]} ⊎ filter (fun r' => r' ∉ X ∖ {[+ r +]}) (shared {[+ r +]})
  = ∅.
Proof.
  intros Hs Hin. apply copy_of_held_adds_nothing; [done|].
  apply elem_of_multiplicity.
  rewrite multiplicity_difference, multiplicity_singleton_eq. lia.
Qed.

(** C2, as the code has it. [unallocated] has a third check, that the totals
    contain the quantities to remove. For an agent that is present, a bundle
    its resources contain and totals that pass this check, it subtracts the
    bundle from the agent's resources, lowers the totals by the scalar
    quantities of the non-shared part plus those of the shared resources whose
    last copy is gone, and erases the agent's entry if nothing is left.
    Removing one of several copies of a shared resource leaves the totals as
    they are. Whenever the totals do not contain the quantities to remove,
    the call dies on that check and returns no ledger. *)
Theorem unallocated_counts_last_shared_once a l (held : Resources) :
  resources l !! a = Some held →
  (∀ d, d ⊆ held →
     let q := fromScalarResources (scalars
       (nonShared d ⊎ filter (fun r => r ∉ held ∖ d) (shared d))) in
     q ⊆ totals l →
     subtract a d l =
     Ok (mk (if decide (held ∖ d = ∅) then delete a (resources l)
             else <[a := held ∖ d]> (resources l))
            (totals l ∖ q)))
  ∧ (∀ r, isShared r → (2 ≤ multiplicity r held)%nat →
     subtract a {[+ r +]} l =
     Ok (mk (<[a := held ∖ {[+ r +]}]> (resources l)) (totals l)))
  ∧ (∀ d, d ⊆ held →
     ¬ fromScalarResources (scalars
         (nonShared d ⊎ filter (fun r => r ∉ held ∖ d) (shared d)))
       ⊆ totals l →
     subtract a d l = Fatal TotalsContained).
Proof.
  intros Hm. split; [|split].
  - intros d Hsub q Hq. by apply subtract_Ok.
  - intros r Hs Hin.
    assert (Hsub : {[+ r +]} ⊆ held).
    { intros x. destruct (decide (x = r)) as [->|Hne].
      - rewrite multiplicity_singleton_eq. lia.
      - rewrite (multiplicity_singleton_ne x r Hne). lia. }
    rewrite (subtract_Ok a _ l held Hm Hsub);
      rewrite (last_copy_stays r held Hs Hin), quantities_empty.
    + rewrite decide_False.
      * f_equal. f_equal. bag_solver.
      * intros He. apply (f_equal (multiplicity r)) in He.
        rewrite multiplicity_difference, multiplicity_singleton_eq,
          multiplicity_empty in He. lia.
    + apply gmultiset_empty_subseteq.
  - intros d Hsub Hq. unfold subtract. rewrite Hm.
    rewrite decide_True by done. rewrite at_insert_eq.
    by rewrite decide_False.
Qed.

Lemma unallocated_counts_last_shared_once_witness :
  (resources twoCopies !! "A" = Some twoD ∧
   isShared D ∧ (2 ≤ multiplicity D twoD)%nat ∧
   subtract "A" oneD twoCopies =
   Ok (mk (<["A" := twoD ∖ oneD]> (resources twoCopies))
          (totals twoCopies)))
  ∧ (resources staleTotals !! "A" = Some oneD ∧
     oneD ⊆@{Resources} oneD ∧
     ¬ fromScalarResources (scalars
         (nonShared oneD ⊎ filter (fun r => r ∉ oneD ∖ oneD) (shared oneD)))
       ⊆ totals staleTotals ∧
     subtract "A" oneD staleTotals = Fatal TotalsContained).
Proof.
  assert (Hm : resources twoCopies !! "A" = Some twoD)
    by exact lookup_twoCopies.
  assert (Hs : isShared D) by exact D_shared.
  assert (Hin : (2 ≤ multiplicity D twoD)%nat) by exact two_copies_held.
  assert (Hst : resources staleTotals !! "A" = Some oneD)
    by exact lookup_staleTotals.
  assert (Hsub : oneD ⊆@{Resources} oneD) by reflexivity.
  split.
  - split; [exact Hm|]. split; [exact Hs|]. split; [exact Hin|].
    exact (proj1 (proj2
      (unallocated_counts_last_shared_once "A" twoCopies _ Hm)) D Hs Hin).
  - split; [exact Hst|]. split; [exact Hsub|].
    split; [exact stale_lacks_last_copy|].
    exact (proj2 (proj2
      (unallocated_counts_last_shared_once "A" staleTotals _ Hst))
      oneD Hsub stale_lacks_last_copy).
Defined.

(** C2 as stated fails: on a ledger the mutators reach, with the agent
    present and the bundle contained in its resources, [unallocated] dies on
    the totals check. *)
Lemma unallocated_dies_on_stale_totals :
  reachable staleTotals ∧
  resources staleTotals !! "A" = Some oneD ∧
  oneD ⊆@{Resources} oneD ∧
  subtract "A" oneD staleTotals = Fatal TotalsContained.
Proof.
  split; [apply reachable_staleTotals|]. split; [reflexivity|].
  split; [done|]. vm_compute. reflexivity.
Qed.

(** C3, as the code has it. [allocated] followed by [unallocated] of the same
    bundle on the same agent completes, and restores the totals and what
    every agent holds. The per-agent map itself is restored unless it had an
    entry holding nothing for that agent, which the pair of calls erases. *)
Theorem allocated_unallocated_restores a d l :
  ∃ l', subtract a d (add a d l) = Ok l'
    ∧ totals l' = totals l
    ∧ (∀ a', at_ a' (resources l') = at_ a' (resources l))
    ∧ (resources l !! a ≠ Some ∅ → resources l' = resources l).
Proof.
  set (before := at_ a (resources l)).
  assert (Hm : resources (add a d l) !! a = Some (before ⊎ d)).
  { rewrite add_resources. apply lookup_insert_eq. }
  assert (Hsub : d ⊆ before ⊎ d) by multiset_solver.
  assert (Hback : (before ⊎ d) ∖ d = before) by bag_solver.
  eexists. split.
  { apply (subtract_Ok a d (add a d l) _ Hm Hsub).
    rewrite Hback, add_totals. fold before. bag_solver. }
  cbn [totals resources]. rewrite Hback, add_totals, add_resources.
  fold before.
  split; [bag_solver|]. split.
  - intros a'. case_decide as He.
    + rewrite delete_insert_eq. destruct (decide (a = a')) as [<-|].
      * by rewrite at_delete_eq.
      * by rewrite at_delete_ne.
    + rewrite insert_insert_eq. destruct (decide (a = a')) as [<-|].
      * by rewrite at_insert_eq.
      * by rewrite at_insert_ne.
  - intros Hne. unfold before, at_ in *.
    destruct (resources l !! a) as [X|] eqn:HX; simpl in *.
    + rewrite decide_False by congruence.
      rewrite insert_insert_eq. by apply insert_id.
    + rewrite decide_True by done.
      rewrite delete_insert_eq. by apply delete_id.
Qed.

Lemma allocated_unallocated_restores_witness :
  resources twoCopies !! "A" ≠ Some ∅ ∧
  ∃ l', subtract "A" oneCpu (add "A" oneCpu twoCopies) = Ok l'
    ∧ totals l' = totals twoCopies
    ∧ resources l' = resources twoCopies.
Proof.
  assert (Hne : resources twoCopies !! "A" ≠ Some ∅).
  { rewrite lookup_twoCopies. intros He. apply twoD_nonempty. congruence. }
  split; [exact Hne|].
  destruct (allocated_unallocated_restores "A" oneCpu twoCopies)
    as (l' & Hs & Ht & _ & Hr).
  exists l'. split; [exact Hs|]. split; [exact Ht|]. exact (Hr Hne).
Defined.

(** C3 as stated fails: [allocated] with an empty bundle leaves an entry
    holding nothing, and the pair of calls erases it. *)
Lemma roundtrip_erases_empty_entry :
  reachable emptyEntry ∧
  resources emptyEntry !! "A" = Some ∅ ∧
  ∃ l', subtract "A" oneCpu (add "A" oneCpu emptyEntry) = Ok l'
    ∧ resources l' !! "A" = None
    ∧ resources l' ≠ resources emptyEntry.
Proof.
  split; [unfold emptyEntry; eauto using reachable|].
  split; [reflexivity|].
  eexists. split; [vm_compute; reflexivity|].
  split; [reflexivity|].
  intros He. apply (f_equal (fun m => m !! "A")) in He.
  vm_compute in He. discriminate.
Qed.

Lemma singleton_subseteq (r : Resource) (X : Resources) :
  r ∈ X → {[+ r +]} ⊆ X.
Proof.
  intros Hin x. rewrite elem_of_multiplicity in Hin.
  destruct (decide (x = r)) as [->|Hne].
  - rewrite multiplicity_singleton_eq. lia.
  - rewrite (multiplicity_singleton_ne x r Hne). lia.
Qed.

(** C4, as the code has it. [update] has a third check, that the totals
    contain the scalar quantities of the old bundle. For an agent that is
    present, an old bundle its resources contain and totals that pass this
    check, it replaces old by new in the agent's resources, lowers the totals
    by the scalar quantities of old and raises them by those of new, whatever
    copies of shared resources the agent holds, for any new bundle (the empty
    one too), and erases the agent's entry if nothing is left. Taking away
    one of several copies of a shared resource lowers the totals by its size
    although a copy stays. Whenever the totals do not contain the scalar
    quantities of old, the call dies on that check and returns no ledger. *)
Theorem update_replaces_unfiltered a l (held : Resources) :
  resources l !! a = Some held →
  (∀ o n, o ⊆ held →
     fromScalarResources (scalars o) ⊆ totals l →
     update a o n l =
     Ok (mk (if decide (held ∖ o ⊎ n = ∅) then delete a (resources l)
             else <[a := held ∖ o ⊎ n]> (resources l))
            (totals l ∖ fromScalarResources (scalars o)
               ⊎ fromScalarResources (scalars n))))
  ∧ (∀ r size, r_shared r = Some size → isScalar r →
     (2 ≤ multiplicity r held)%nat →
     (Pos.to_nat size *: {[+ r_name r +]}) ⊆ totals l →
     update a {[+ r +]} ∅ l =
     Ok (mk (<[a := held ∖ {[+ r +]}]> (resources l))
            (totals l ∖ (Pos.to_nat size *: {[+ r_name r +]}))))
  ∧ (∀ o n, o ⊆ held →
     ¬ fromScalarResources (scalars o) ⊆ totals l →
     update a o n l = Fatal TotalsContained).
Proof.
  intros Hm. split; [|split].
  - intros o n Hsub Hq. by apply update_Ok.
  - intros r size Hs Hsc Hin Hq.
    assert (HQ : fromScalarResources (scalars {[+ r +]}) =
                 Pos.to_nat size *: {[+ r_name r +]}).
    { rewrite <-(gmultiset_scalar_mul_1 {[+ r +]}).
      by apply quantities_shared_copies. }
    assert (Hsub : {[+ r +]} ⊆ held).
    { apply singleton_subseteq, elem_of_multiplicity. lia. }
    rewrite (update_Ok a _ ∅ l held Hm Hsub); rewrite HQ; [|done].
    rewrite quantities_empty, !(right_id_L ∅ (⊎)), decide_False; [done|].
    intros He. apply (f_equal (multiplicity r)) in He.
    rewrite multiplicity_difference, multiplicity_singleton_eq,
      multiplicity_empty in He. lia.
  - intros o n Hsub Hq. unfold update. rewrite Hm.
    rewrite decide_True by done. by rewrite decide_False.
Qed.

Lemma update_replaces_unfiltered_witness :
  (resources twoCopies !! "A" = Some twoD ∧
   oneD ⊆ twoD ∧
   fromScalarResources (scalars oneD) ⊆ totals twoCopies ∧
   update "A" oneD oneCpu twoCopies =
   Ok (mk (if decide (twoD ∖ oneD ⊎ oneCpu = ∅)
           then delete "A" (resources twoCopies)
           else <["A" := twoD ∖ oneD ⊎ oneCpu]>
                  (resources twoCopies))
          (totals twoCopies ∖ fromScalarResources (scalars oneD)
             ⊎ fromScalarResources (scalars oneCpu))))
  ∧ (resources staleTotals !! "A" = Some oneD ∧
     oneD ⊆@{Resources} oneD ∧
     ¬ fromScalarResources (scalars oneD) ⊆ totals staleTotals ∧
     update "A" oneD oneCpu staleTotals = Fatal TotalsContained).
Proof.
  assert (Hm : resources twoCopies !! "A" = Some twoD)
    by exact lookup_twoCopies.
  assert (Hsub : oneD ⊆ twoD) by exact oneD_in_twoD.
  assert (Hq : fromScalarResources (scalars oneD) ⊆ totals twoCopies).
  { exact (quantities_within_totals "A" oneD twoCopies twoD
             consistent_twoCopies Hm Hsub). }
  assert (Hst : resources staleTotals !! "A" = Some oneD)
    by exact lookup_staleTotals.
  assert (Hsub' : oneD ⊆@{Resources} oneD) by reflexivity.
  split.
  - split; [exact Hm|]. split; [exact Hsub|]. split; [exact Hq|].
    exact (proj1 (update_replaces_unfiltered "A" twoCopies _ Hm)
             oneD oneCpu Hsub Hq).
  - split; [exact Hst|]. split; [exact Hsub'|].
    split; [exact stale_lacks_old|].
    exact (proj2 (proj2 (update_replaces_unfiltered "A" staleTotals _ Hst))
             oneD oneCpu Hsub' stale_lacks_old).
Defined.

(** C4 as stated fails: on a ledger the mutators reach, with the agent
    present and the old bundle contained in its resources, [update] dies on
    the totals check instead of replacing anything. *)
Lemma update_dies_before_replacing :
  reachable staleTotals ∧
  resources staleTotals !! "A" = Some oneD ∧
  oneD ⊆@{Resources} oneD ∧
  update "A" oneD oneCpu staleTotals = Fatal TotalsContained.
Proof.
  split; [apply reachable_staleTotals|]. split; [reflexivity|].
  split; [done|]. vm_compute. reflexivity.
Qed.

(** C5, as the code has it. The totals check of [update] is the third of its
    preconditions. It passes, and with the agent present and the old bundle
    contained [update] completes, on every ledger whose totals agree with the
    per-agent map; every ledger built from the empty one by [allocated] and
    [unallocated] is one, whatever copies of shared resources it holds. *)
Theorem update_completes_on_consistent_ledger :
  (∀ l, built l → consistent l)
  ∧ (∀ a o n l held,
       consistent l → resources l !! a = Some held → o ⊆ held →
       fromScalarResources (scalars o) ⊆ totals l
       ∧ ∃ l', update a o n l = Ok l').
Proof.
  split; [apply built_consistent|].
  intros a o n l held Hc Hm Hsub.
  assert (Hq : fromScalarResources (scalars o) ⊆ totals l).
  { rewrite Hc. etrans; [by apply quantities_mono|].
    by apply aggregate_contains with a. }
  split; [done|]. rewrite (update_Ok a o n l held Hm Hsub Hq). eauto.
Qed.

Lemma update_completes_on_consistent_ledger_witness :
  built twoCopies ∧
  resources twoCopies !! "A" = Some twoD ∧
  twoD ⊆@{Resources} twoD ∧
  ∃ l', update "A" twoD ∅ twoCopies = Ok l'.
Proof.
  assert (Hb : built twoCopies).
  { unfold twoCopies. apply built_add, built_add, built_empty. }
  assert (Hm : resources twoCopies !! "A" = Some twoD)
    by exact lookup_twoCopies.
  assert (Hsub : twoD ⊆@{Resources} twoD) by (by intros x).
  split; [exact Hb|]. split; [exact Hm|]. split; [exact Hsub|].
  destruct update_completes_on_consistent_ledger as [Hbc Hu].
  exact (proj2 (Hu "A" _ ∅ twoCopies _ (Hbc _ Hb) Hm Hsub)).
Defined.

(** C5 as stated fails: the totals check of [update] is reached and fires on
    a ledger built by two [allocated] calls of one shared resource and one
    [update], with the agent present and the old bundle contained. *)
Lemma update_totals_check_fires :
  update "A" oneD ∅ twoCopies = Ok staleTotals ∧
  reachable staleTotals ∧
  resources staleTotals !! "A" = Some oneD ∧
  oneD ⊆@{Resources} oneD ∧
  update "A" oneD ∅ staleTotals = Fatal TotalsContained.
Proof.
  split; [vm_compute; reflexivity|].
  split; [apply reachable_staleTotals|]. split; [reflexivity|].
  split; [done|]. vm_compute. reflexivity.
Qed.

(** C6. [unallocated] dies on a fatal check when the agent is absent and when
    the agent's resources do not contain the bundle; so does [update] when
    the agent is absent and when its resources do not contain the old
    bundle. Neither returns a ledger. *)
Theorem contract_violations_are_fatal a d n l :
  (resources l !! a = None →
     subtract a d l = Fatal AgentPresent ∧
     update a d n l = Fatal AgentPresent)
  ∧ (∀ held, resources l !! a = Some held → ¬ d ⊆ held →
     subtract a d l = Fatal ResourcesContained ∧
     update a d n l = Fatal ResourcesContained).
Proof.
  split.
  - intros Hm. unfold subtract, update. by rewrite Hm.
  - intros held Hm Hsub. unfold subtract, update. rewrite Hm.
    by rewrite !decide_False by done.
Qed.

Lemma contract_violations_are_fatal_witness :
  (resources twoCopies !! "B" = None ∧
   subtract "B" oneCpu twoCopies = Fatal AgentPresent ∧
   update "B" oneCpu ∅ twoCopies = Fatal AgentPresent)
  ∧ (resources twoCopies !! "A" = Some twoD ∧
     ¬ oneCpu ⊆ twoD ∧
     subtract "A" oneCpu twoCopies = Fatal ResourcesContained ∧
     update "A" oneCpu ∅ twoCopies = Fatal ResourcesContained).
Proof.
  assert (HB : resources twoCopies !! "B" = None)
    by exact lookup_twoCopies_other.
  assert (HA : resources twoCopies !! "A" = Some twoD)
    by exact lookup_twoCopies.
  assert (Hn : ¬ oneCpu ⊆ twoD) by exact cpu_not_in_twoD.
  split.
  - split; [exact HB|].
    exact (proj1 (contract_violations_are_fatal "B" oneCpu ∅ twoCopies)
             HB).
  - split; [exact HA|]. split; [exact Hn|].
    exact (proj2 (contract_violations_are_fatal "A" oneCpu ∅ twoCopies)
             _ HA Hn).
Defined.

End LedgerClaims.

(** ** Facts about the children of a node *)

Section ChildrenFacts.

Import Node.

Implicit Types (h : store) (n c : Node.t) (cs : list ptr).

Lemma kindAt_setChildren h self n cs p :
  h !! self = Some n →
  kindAt (<[self := setChildren n cs]> h) p = kindAt h p.
Proof.
  intros Hn. unfold kindAt. destruct (decide (self = p)) as [<-|Hne].
  - by rewrite lookup_insert_eq, Hn.
  - by rewrite lookup_insert_ne.
Qed.


Lemma inactiveLast_cons h x cs :
  inactiveLast h (x :: cs) ↔
  (kindAt h x = Some INACTIVE_LEAF →
     Forall (fun y => kindAt h y = Some INACTIVE_LEAF) cs)
  ∧ inactiveLast h cs.
Proof.
  split.
  - intros H. split.
    + intros Hx. apply Forall_lookup. intros j cj Hj.
      apply (H 0%nat (S j) x cj); [lia|done..].
    + intros i j ci cj Hlt Hi Hj. apply (H (S i) (S j) ci cj); [lia|done..].
  - intros [Hx Hcs] i j ci cj Hlt Hi Hj Hk.
    destruct j as [|j]; [lia|]. destruct i as [|i]; simpl in *.
    + injection Hi as ->. specialize (Hx Hk).
      rewrite Forall_lookup in Hx. by apply (Hx j).
    + apply (Hcs i j ci cj); [lia|done..].
Qed.

Lemma inactiveLast_ext h h' cs :
  (∀ x, x ∈ cs → kindAt h' x = kindAt h x) →
  inactiveLast h cs → inactiveLast h' cs.
Proof.
  intros Hk H i j ci cj Hlt Hi Hj.
  rewrite !Hk by (eapply list_elem_of_lookup_2; eauto). by apply (H i j).
Qed.



Lemma eraseFirst_subseteq x cs y : y ∈ eraseFirst x cs → y ∈ cs.
Proof.
  induction cs as [|z cs IH]; simpl; [done|].
  case_decide.
  - apply list_elem_of_further.
  - rewrite !elem_of_cons. intros [->|Hy]; [by left|right; by apply IH].
Qed.

Lemma Forall_eraseFirst (P : ptr → Prop) x cs :
  Forall P cs → Forall P (eraseFirst x cs).
Proof.
  rewrite !Forall_forall. intros H y Hy. apply H.
  by apply (eraseFirst_subseteq x).
Qed.

Lemma inactiveLast_eraseFirst h x cs :
  inactiveLast h cs → inactiveLast h (eraseFirst x cs).
Proof.
  induction cs as [|y cs IH]; simpl; [done|].
  rewrite inactiveLast_cons. intros [Hy Hcs].
  case_decide; [done|]. apply inactiveLast_cons. split; [|by apply IH].
  intros Hk. by apply Forall_eraseFirst, Hy.
Qed.

Lemma NoDup_eraseFirst x cs : NoDup cs → NoDup (eraseFirst x cs).
Proof.
  induction 1 as [|y cs Hy Hcs IH]; simpl; [constructor|].
  case_decide; [done|]. constructor; [|done].
  intros Hin. by apply Hy, (eraseFirst_subseteq x).
Qed.

Lemma not_elem_of_eraseFirst x cs : NoDup cs → x ∉ eraseFirst x cs.
Proof.
  induction 1 as [|y cs Hy Hcs IH]; simpl; [by intros ?%elem_of_nil|].
  case_decide as Hd; [by subst|].
  rewrite elem_of_cons. intros [->|Hin]; [done|by apply IH].
Qed.

Lemma filter_absent x cs : x ∉ cs → filter (fun y => y = x) cs = [].
Proof.
  induction cs as [|z cs IH]; [done|].
  rewrite not_elem_of_cons. intros [Hne Hx].
  rewrite filter_cons_False by congruence. by apply IH.
Qed.

(** What [addChild] returns when its check passes. *)
Lemma addChild_Some h self child n c :
  h !! self = Some n → h !! child = Some c → child ∉ children n →
  addChild self child h =
  Some (<[self := setChildren n
          (if decide (kind c = INACTIVE_LEAF) then children n ++ [child]
           else child :: children n)]> h).
Proof.
  intros Hn Hc Hin. unfold addChild. rewrite Hn, Hc.
  rewrite decide_False by done. by destruct (kind c).
Qed.

Lemma addChild_inv h self child h' :
  addChild self child h = Some h' →
  ∃ n c, h !! self = Some n ∧ h !! child = Some c ∧ child ∉ children n.
Proof.
  unfold addChild.
  destruct (h !! self) as [n|]; [|done].
  destruct (h !! child) as [c|]; [|done].
  case_decide; [done|]. eauto.
Qed.

Lemma removeChild_Some h self child n :
  h !! self = Some n → child ∈ children n →
  removeChild self child h =
  Some (<[self := setChildren n (eraseFirst child (children n))]> h).
Proof. intros Hn Hin. unfold removeChild. by rewrite Hn, decide_True. Qed.

Lemma removeChild_inv h self child h' :
  removeChild self child h = Some h' →
  ∃ n, h !! self = Some n ∧ child ∈ children n.
Proof.
  unfold removeChild. destruct (h !! self) as [n|]; [|done].
  case_decide; [eauto|done].
Qed.

(** Replacing the [children] of one node by a vector that keeps the
    invariant keeps it for the whole store. *)
Lemma ordered_setChildren h self n cs :
  h !! self = Some n → ordered h → inactiveLast h cs →
  ordered (<[self := setChildren n cs]> h).
Proof.
  intros Hn Hord Hcs p m Hm.
  apply (inactiveLast_ext h); [intros; by apply kindAt_setChildren|].
  destruct (decide (self = p)) as [<-|Hne].
  - rewrite lookup_insert_eq in Hm. by injection Hm as <-.
  - rewrite lookup_insert_ne in Hm by done. by apply (Hord p).
Qed.


Lemma ordered_removeChild h self child h' :
  removeChild self child h = Some h' → ordered h → ordered h'.
Proof.
  intros Hr Hord.
  destruct (removeChild_inv _ _ _ _ Hr) as (n & Hn & Hin).
  rewrite (removeChild_Some _ _ _ _ Hn Hin) in Hr. injection Hr as <-.
  apply ordered_setChildren; [done..|].
  by apply inactiveLast_eraseFirst, (Hord self).
Qed.

Lemma duplicateFree_setChildren h self n cs :
  duplicateFree h → NoDup cs →
  duplicateFree (<[self := setChildren n cs]> h).
Proof.
  intros Hd Hcs p m Hm. destruct (decide (self = p)) as [<-|Hne].
  - rewrite lookup_insert_eq in Hm. by injection Hm as <-.
  - rewrite lookup_insert_ne in Hm by done. by apply (Hd p).
Qed.

Lemma duplicateFree_addChild h self child h' :
  addChild self child h = Some h' → duplicateFree h → duplicateFree h'.
Proof.
  intros Ha Hd.
  destruct (addChild_inv _ _ _ _ Ha) as (n & c & Hn & Hc & Hin).
  rewrite (addChild_Some _ _ _ _ _ Hn Hc Hin) in Ha. injection Ha as <-.
  apply duplicateFree_setChildren; [done|].
  pose proof (Hd self n Hn) as Hnd. case_decide.
  - apply NoDup_app. split; [done|]. split; [|apply NoDup_singleton].
    intros x Hx ->%list_elem_of_singleton. done.
  - by constructor.
Qed.

Lemma duplicateFree_removeChild h self child h' :
  removeChild self child h = Some h' → duplicateFree h → duplicateFree h'.
Proof.
  intros Hr Hd.
  destruct (removeChild_inv _ _ _ _ Hr) as (n & Hn & Hin).
  rewrite (removeChild_Some _ _ _ _ Hn Hin) in Hr. injection Hr as <-.
  apply duplicateFree_setChildren; [done|].
  by apply NoDup_eraseFirst, (Hd self).
Qed.


Lemma new_children h _name _kind _parent n :
  new h _name _kind _parent = Some n → children n = [].
Proof.
  unfold new. destruct _parent as [p|]; [|by intros [= <-]].
  destruct (h !! p); [|done]. by intros [= <-].
Qed.



Lemma grown_duplicateFree h : grown h → duplicateFree h.
Proof.
  induction 1 as [|h p nm k par n Hg IH Hp Hnew
                  |h self child h' _ IH Ha|h self child h' _ IH Hr].
  - intros p n Hp. by rewrite lookup_empty in Hp.
  - intros q m Hm. destruct (decide (p = q)) as [<-|Hne].
    + rewrite lookup_insert_eq in Hm. injection Hm as <-.
      rewrite (new_children _ _ _ _ _ Hnew). constructor.
    + rewrite lookup_insert_ne in Hm by done. by apply (IH q).
  - by apply (duplicateFree_addChild h self child).
  - by apply (duplicateFree_removeChild h self child).
Qed.

End ChildrenFacts.

(** ** Facts about tended stores *)

Section TendedFacts.

Import Node.

Implicit Types (h : store) (n m cn : Node.t) (cs : list ptr) (c p q : ptr).

Lemma parentLinked_closed h : parentLinked h → closed h.
Proof.
  intros Hl p n c Hp Hc. destruct (Hl p n c Hp Hc) as (? & ? & _). eauto.
Qed.















End TendedFacts.

(** ** The claims about the children of a node *)

Section ChildrenClaims.

Import Node.

Implicit Types (h : store) (n c : Node.t) (cs : list ptr).



(** C10. In every store grown by constructing nodes and by [addChild] and
    [removeChild] every [children] vector is free of duplicates. [addChild]
    dies on its check when the child is already there and [removeChild] when
    it is not; when they return, [addChild] leaves the child in the vector
    exactly once and [removeChild] leaves it out. *)
Theorem children_are_duplicate_free :
  (∀ h, grown h → duplicateFree h)
  ∧ (∀ h self child n,
       h !! self = Some n → child ∈ children n →
       addChild self child h = None)
  ∧ (∀ h self child n,
       h !! self = Some n → child ∉ children n →
       removeChild self child h = None)
  ∧ (∀ h self child h',
       duplicateFree h → addChild self child h = Some h' →
       duplicateFree h'
       ∧ ∃ n', h' !! self = Some n'
           ∧ length (filter (fun x => x = child) (children n')) = 1%nat)
  ∧ (∀ h self child h',
       duplicateFree h → removeChild self child h = Some h' →
       duplicateFree h'
       ∧ ∃ n', h' !! self = Some n' ∧ child ∉ children n').
Proof.
  split; [apply grown_duplicateFree|]. split; [|split; [|split]].
  - intros h self child n Hn Hin. unfold addChild. rewrite Hn.
    destruct (h !! child); [|done]. by rewrite decide_True.
  - intros h self child n Hn Hin. unfold removeChild. rewrite Hn.
    by rewrite decide_False.
  - intros h self child h' Hd Ha. split.
    { by apply (duplicateFree_addChild h self child). }
    pose proof (duplicateFree_addChild _ _ _ _ Ha Hd) as Hd'.
    destruct (addChild_inv _ _ _ _ Ha) as (n & c & Hn & Hc & Hin).
    rewrite (addChild_Some _ _ _ _ _ Hn Hc Hin) in Ha. injection Ha as <-.
    eexists. split; [apply lookup_insert_eq|]. simpl.
    assert (Hnone : filter (fun x => x = child) (children n) = []).
    { by apply filter_absent. }
    case_decide.
    + rewrite filter_app, Hnone. simpl.
      rewrite filter_cons_True by done. reflexivity.
    + rewrite filter_cons_True by done. simpl. by rewrite Hnone.
  - intros h self child h' Hd Hr. split.
    { by apply (duplicateFree_removeChild h self child). }
    destruct (removeChild_inv _ _ _ _ Hr) as (n & Hn & Hin).
    rewrite (removeChild_Some _ _ _ _ Hn Hin) in Hr. injection Hr as <-.
    eexists. split; [apply lookup_insert_eq|]. simpl.
    by apply not_elem_of_eraseFirst, (Hd self).
Qed.

Lemma duplicateFree_example : duplicateFree example.
Proof.
  change (map_Forall (fun _ n => NoDup (children n)) example).
  apply (bool_decide_unpack _). vm_compute. exact I.
Qed.

Lemma children_are_duplicate_free_witness :
  grown ∅ ∧ duplicateFree ∅
  ∧ (example !! 2%positive =
       Some (mk "a" "a" None INTERNAL (Some 1%positive)
               [4%positive; 3%positive] Allocation.empty)
     ∧ (4%positive ∈ [4%positive; 3%positive])
     ∧ addChild 2%positive 4%positive example = None)
  ∧ ((1%positive ∉ [4%positive; 3%positive])
     ∧ removeChild 2%positive 1%positive example = None)
  ∧ (duplicateFree example
     ∧ removeChild 2%positive 4%positive example =
         Some (<[2%positive := mk "a" "a" None INTERNAL (Some 1%positive)
                   [3%positive] Allocation.empty]> example)
     ∧ duplicateFree
         (<[2%positive := mk "a" "a" None INTERNAL (Some 1%positive)
              [3%positive] Allocation.empty]> example)).
Proof.
  destruct children_are_duplicate_free as (Hg & Ha & Hr & _ & Hr').
  assert (H0 : grown ∅) by constructor.
  assert (H2 : example !! 2%positive =
    Some (mk "a" "a" None INTERNAL (Some 1%positive) [4%positive; 3%positive]
            Allocation.empty)) by (vm_compute; reflexivity).
  assert (Hin : 4%positive ∈ [4%positive; 3%positive]).
  { apply elem_of_cons. by left. }
  assert (Hnin : 1%positive ∉ [4%positive; 3%positive]).
  { rewrite !not_elem_of_cons. repeat split; try lia. apply not_elem_of_nil. }
  assert (Hrm : removeChild 2%positive 4%positive example =
    Some (<[2%positive := mk "a" "a" None INTERNAL (Some 1%positive)
              [3%positive] Allocation.empty]> example))
    by (vm_compute; reflexivity).
  split; [exact H0|]. split; [exact (Hg ∅ H0)|].
  split; [split; [exact H2|split; [exact Hin|]]|].
  { exact (Ha example 2%positive 4%positive _ H2 Hin). }
  split; [split; [exact Hnin|]|].
  { exact (Hr example 2%positive 1%positive _ H2 Hnin). }
  split; [exact duplicateFree_example|]. split; [exact Hrm|].
  exact (proj1 (Hr' example 2%positive 4%positive _ duplicateFree_example Hrm)).
Defined.

End ChildrenClaims.

(** ** Paths *)

Section PathClaims.

Import Node.

Implicit Types (h : store) (n : Node.t).

Lemma string_app_assoc (a b c : string) : (a +:+ b) +:+ c = a +:+ b +:+ c.
Proof.
  induction a as [|x a IH]; [done|].
  change (String x ((a +:+ b) +:+ c) = String x (a +:+ b +:+ c)).
  by rewrite IH.
Qed.

Lemma joinAll_snoc sep (segments : list string) x :
  segments ≠ [] →
  joinAll sep (segments ++ [x]) = joinAll sep segments +:+ sep +:+ x.
Proof.
  induction segments as [|y [|z rest] IH]; [done|done|].
  intros _. change (joinAll sep ((y :: z :: rest) ++ [x]))
    with (y +:+ sep +:+ joinAll sep ((z :: rest) ++ [x])).
  rewrite IH by done.
  change (joinAll sep (y :: z :: rest))
    with (y +:+ sep +:+ joinAll sep (z :: rest)).
  by rewrite !string_app_assoc.
Qed.

Lemma walk_root_inv h p n segments :
  walk h p segments → h !! p = Some n →
  (parent n = None → segments = []) ∧
  (∀ q, parent n = Some q → segments ≠ []).
Proof.
  destruct 1 as [p m Hm Hpar|p m q segments Hm Hpar Hw]; intros Hn;
    rewrite Hn in Hm; injection Hm as <-; split; try congruence.
  intros _ _ Hnil. by apply app_eq_nil in Hnil as [_ ?].
Qed.

(** What the constructor returns for a parent that is in the store. *)
Lemma new_Some h _name _kind p pn :
  h !! p = Some pn →
  new h _name _kind (Some p) =
  Some (mk _name
          (match parent pn with
           | None => _name
           | Some _ => path pn +:+ "/" +:+ _name
           end)
          None _kind (Some p) [] Allocation.empty).
Proof. intros Hp. unfold new, join. by rewrite Hp. Qed.

(** C8, as the code has it. [clientPath()] returns the node's own path when
    its name is not ".". When the name is "." it checks that the node is a
    leaf with a parent: then it returns the parent's path, and whenever it
    returns at all the node is such a leaf. The constructor sets the path to
    the empty string for a node without parent, to the name for a child of
    such a node and to the parent's path, "/" and the name otherwise; when
    the parent's path is the "/"-join of the names on the walk from the root,
    so is the new node's. *)
Theorem clientPath_and_cached_path :
  (∀ h n, name n ≠ "." → clientPath h n = Some (path n))
  ∧ (∀ h n p pn,
       name n = "." → leafKind (kind n) = true →
       parent n = Some p → h !! p = Some pn →
       clientPath h n = Some (path pn))
  ∧ (∀ h n s,
       name n = "." → clientPath h n = Some s →
       leafKind (kind n) = true
       ∧ ∃ p pn, parent n = Some p ∧ h !! p = Some pn ∧ s = path pn)
  ∧ (∀ h _name _kind,
       ∃ n, new h _name _kind None = Some n ∧ path n = "")
  ∧ (∀ h _name _kind p pn,
       h !! p = Some pn →
       ∃ n, new h _name _kind (Some p) = Some n
         ∧ name n = _name ∧ kind n = _kind ∧ parent n = Some p
         ∧ path n = match parent pn with
                    | None => _name
                    | Some _ => path pn +:+ "/" +:+ _name
                    end)
  ∧ (∀ h _name _kind p pn segments n,
       walk h p segments → h !! p = Some pn →
       path pn = joinAll "/" segments →
       new h _name _kind (Some p) = Some n →
       path n = joinAll "/" (segments ++ [_name])).
Proof.
  split; [|split; [|split; [|split; [|split]]]].
  - intros h n Hne. unfold clientPath. by rewrite decide_False.
  - intros h n p pn Hdot Hleaf Hpar Hp. unfold clientPath.
    by rewrite decide_True, Hleaf, Hpar, Hp.
  - intros h n s Hdot. unfold clientPath. rewrite decide_True by done.
    destruct (leafKind (kind n)); [|done].
    destruct (parent n) as [p|]; [|done].
    destruct (h !! p) as [pn|] eqn:Hp; [|done].
    intros [= <-]. split; [done|]. by exists p, pn.
  - intros h nm k. eexists. split; [reflexivity|done].
  - intros h nm k p pn Hp. eexists. split; [by apply new_Some|]. done.
  - intros h nm k p pn segments n Hw Hp Hpath.
    rewrite (new_Some _ _ _ _ _ Hp). intros [= <-]. simpl.
    destruct (walk_root_inv _ _ _ _ Hw Hp) as [Hroot Hinner].
    destruct (parent pn) as [q|].
    + rewrite joinAll_snoc by eauto. by rewrite Hpath.
    + by rewrite (Hroot eq_refl).
Qed.

Lemma clientPath_and_cached_path_witness :
  let virtualLeaf :=
    mk "." "a/." None INACTIVE_LEAF (Some 2%positive) [] Allocation.empty in
  let a := mk "a" "a" None INTERNAL (Some 1%positive)
             [4%positive; 3%positive] Allocation.empty in
  (name a ≠ "." ∧ clientPath example a = Some "a")
  ∧ (name virtualLeaf = "." ∧ leafKind (kind virtualLeaf) = true
     ∧ parent virtualLeaf = Some 2%positive ∧ example !! 2%positive = Some a
     ∧ clientPath example virtualLeaf = Some "a")
  ∧ (walk example 2%positive ["a"] ∧ path a = joinAll "/" ["a"]
     ∧ new example "b" ACTIVE_LEAF (Some 2%positive)
       = Some (mk "b" "a/b" None ACTIVE_LEAF (Some 2%positive) []
                 Allocation.empty)
     ∧ "a/b" = joinAll "/" (["a"] ++ ["b"])).
Proof.
  intros virtualLeaf a.
  destruct clientPath_and_cached_path as (Hown & Hdot & _ & _ & _ & Hjoin).
  assert (H1 : example !! 1%positive =
    Some (mk "" "" None INTERNAL None [2%positive] Allocation.empty))
    by (vm_compute; reflexivity).
  assert (H2 : example !! 2%positive = Some a) by (vm_compute; reflexivity).
  assert (Hne : name a ≠ ".") by (simpl; discriminate).
  assert (Hw : walk example 2%positive ["a"]).
  { apply (walk_child example 2%positive a 1%positive []); [done..|].
    by apply (walk_root example 1%positive _ H1). }
  assert (Hnew : new example "b" ACTIVE_LEAF (Some 2%positive)
    = Some (mk "b" "a/b" None ACTIVE_LEAF (Some 2%positive) []
              Allocation.empty)) by (vm_compute; reflexivity).
  split; [split; [exact Hne|exact (Hown example a Hne)]|].
  split.
  { split; [reflexivity|]. split; [reflexivity|]. split; [reflexivity|].
    split; [exact H2|].
    exact (Hdot example virtualLeaf 2%positive a eq_refl eq_refl eq_refl H2). }
  split; [exact Hw|]. split; [reflexivity|]. split; [exact Hnew|].
  exact (Hjoin example "b" ACTIVE_LEAF 2%positive a ["a"] _ Hw H2 eq_refl Hnew).
Defined.

(** C8 as stated fails: the constructor builds a node named "." of any kind,
    as for the first segment of the client path "./x"; such an internal node
    is no leaf, and [clientPath()] dies on its check instead of returning the
    parent's path. *)
Lemma dot_named_node_need_not_be_a_leaf :
  ∃ n, new example "." INTERNAL (Some 1%positive) = Some n
    ∧ name n = "." ∧ kind n = INTERNAL ∧ leafKind (kind n) = false
    ∧ clientPath (<[5%positive := n]> example) n = None.
Proof. eexists. split; [vm_compute; reflexivity|]. by repeat split. Qed.

End PathClaims.

(** ** Relative weights *)

Section WeightClaims.

Import Weights.

Local Open Scope Qc_scope.

Implicit Types (t c : tree) (cs : list tree).

Lemma tree_ind_nested (P : tree → Prop) :
  (∀ active w, P (Leaf active w)) →
  (∀ w cs, Forall P cs → P (Inner w cs)) →
  ∀ t, P t.
Proof.
  intros Hleaf Hinner. fix IH 1. intros [active w|w cs]; [apply Hleaf|].
  apply Hinner. induction cs as [|c cs IHcs]; constructor; [apply IH|done].
Qed.

Lemma sum_app (l1 l2 : list Qc) : sum (l1 ++ l2) = sum l1 + sum l2.
Proof.
  induction l1 as [|x l1 IH]; simpl; [by rewrite Qcplus_0_l|].
  unfold sum in *. simpl. rewrite IH. ring.
Qed.

Lemma product_snoc (l : list Qc) x : product (l ++ [x]) = product l * x.
Proof.
  induction l as [|y l IH]; unfold product in *; simpl; [ring|].
  rewrite IH. ring.
Qed.

Lemma activeTotal_cons c cs :
  activeTotal (c :: cs) =
  if hasActive c then getWeight c + activeTotal cs else activeTotal cs.
Proof.
  unfold activeTotal. destruct (hasActive c) eqn:Hc.
  - by rewrite filter_cons_True by done.
  - rewrite filter_cons_False; [done|]. by rewrite Hc.
Qed.

(** The share that arrives at a leaf is the product of the shares on its
    walk. *)
Lemma relativeWeights_product t :
  ∀ acc above,
    relativeWeights t (acc * product above) =
    (fun shares => acc * product shares) <$> ancestorShares t above.
Proof.
  induction t as [active w|w cs IH] using tree_ind_nested;
    intros acc above; simpl.
  - by destruct active.
  - generalize (activeTotal cs). intros T.
    induction IH as [|c cs Hc _ IHcs]; simpl; [done|].
    rewrite fmap_app, <-IHcs. f_equal.
    destruct (hasActive c); [|done].
    rewrite <-Hc, product_snoc. f_equal. ring.
Qed.

Lemma activeTotal_nonneg cs :
  foldr (fun c P => weightsPositive c ∧ P) True cs → 0 ≤ activeTotal cs.
Proof.
  induction cs as [|c cs IH]; simpl; [done|]. intros [Hc Hcs].
  rewrite activeTotal_cons. destruct (hasActive c); [|by apply IH].
  apply Qcplus_nonneg_nonneg; [|by apply IH].
  apply Qclt_le_weak. by destruct c as [?|? ?]; simpl in *; [|destruct Hc].
Qed.

Lemma activeTotal_pos cs :
  foldr (fun c P => weightsPositive c ∧ P) True cs →
  existsb hasActive cs = true → 0 < activeTotal cs.
Proof.
  induction cs as [|c cs IH]; simpl; [done|]. intros [Hc Hcs].
  rewrite activeTotal_cons. destruct (hasActive c); simpl.
  - intros _. apply Qcplus_pos_nonneg; [|by apply activeTotal_nonneg].
    by destruct c as [?|? ?]; simpl in *; [|destruct Hc].
  - by apply IH.
Qed.

(** The shares handed down by a node add up to its own share. *)
Lemma sum_relativeWeights t :
  ∀ acc, weightsPositive t →
    sum (relativeWeights t acc) = if hasActive t then acc else 0.
Proof.
  induction t as [active w|w cs IH] using tree_ind_nested;
    intros acc Hpos; simpl.
  - destruct active; unfold sum; simpl; [ring|done].
  - destruct Hpos as [_ Hpos].
    assert (Hsum : ∀ T,
      sum (flat_map (fun c =>
             if hasActive c then relativeWeights c (acc * (getWeight c / T))
             else []) cs)
      = acc * (activeTotal cs / T)).
    { intros T. induction IH as [|c cs Hc _ IHcs]; simpl.
      - unfold activeTotal, sum, Qcdiv. simpl. ring.
      - destruct Hpos as [Hcpos Hpos].
        rewrite sum_app, IHcs, activeTotal_cons by done.
        destruct (hasActive c) eqn:Hact.
        + rewrite Hc by done. unfold Qcdiv. ring.
        + unfold sum at 1. simpl. ring. }
    rewrite Hsum. destruct (existsb hasActive cs) eqn:Hact.
    + pose proof (activeTotal_pos cs Hpos Hact) as HT.
      unfold Qcdiv. rewrite Qcmult_inv_r; [ring|].
      intros H0. rewrite H0 in HT. by apply Qclt_not_eq in HT.
    + assert (activeTotal cs = 0) as ->; [|unfold Qcdiv; ring].
      clear -Hact. induction cs as [|c cs IHcs]; [done|].
      simpl in Hact. apply orb_false_iff in Hact as [Hc Hcs].
      rewrite activeTotal_cons, Hc. by apply IHcs.
Qed.

(** C9, as the spec's model has it, in exact arithmetic. The relative weight
    cached for an active leaf is the product, over the nodes on the walk from
    the root to the leaf, of the node's weight divided by the weights of the
    active-through children of its parent. When every weight is positive and
    there is an active leaf, the cached relative weights add up to 1. *)
Theorem relative_weights_are_products_and_sum_to_one :
  (∀ t, relativeWeights t 1 = product <$> ancestorShares t [])
  ∧ (∀ t, weightsPositive t → hasActive t = true →
       sum (relativeWeights t 1) = 1).
Proof.
  split.
  - intros t. pose proof (relativeWeights_product t 1 []) as H.
    assert (H1 : 1 * product [] = 1) by (unfold product; simpl; ring).
    rewrite H1 in H. rewrite H. apply list_fmap_ext. intros _ s _. ring.
  - intros t Hpos Hact. by rewrite sum_relativeWeights, Hact.
Qed.

Lemma weightsPositive_hierarchy : weightsPositive hierarchy.
Proof. simpl. repeat split. Qed.

Lemma relative_weights_are_products_and_sum_to_one_witness :
  weightsPositive hierarchy ∧ hasActive hierarchy = true
  ∧ sum (relativeWeights hierarchy 1) = 1
  ∧ relativeWeights hierarchy 1 = product <$> ancestorShares hierarchy [].
Proof.
  destruct relative_weights_are_products_and_sum_to_one as [Hprod Hsum].
  split; [exact weightsPositive_hierarchy|]. split; [reflexivity|].
  split; [|exact (Hprod hierarchy)].
  exact (Hsum hierarchy weightsPositive_hierarchy eq_refl).
Defined.

(** The relative weights of the spec's scenario 5 are a third each. *)
Example relativeWeights_hierarchy :
  this <$> relativeWeights hierarchy 1 = [1 # 3; 1 # 3; 1 # 3]%Q.
Proof. vm_compute. reflexivity. Qed.

(** C9 as stated fails: a sorter without active clients caches no relative
    weight, and the sum over none is 0. *)
Lemma no_active_leaf_sums_to_zero :
  hasActive noClients = false
  ∧ relativeWeights noClients 1 = []
  ∧ sum (relativeWeights noClients 1) = 0
  ∧ sum (relativeWeights noClients 1) ≠ 1.
Proof.
  split; [reflexivity|]. split; [reflexivity|]. split; [reflexivity|].
  simpl. unfold sum. simpl. discriminate.
Qed.

End WeightClaims.

(** ** Further properties of the ledger *)

Section LedgerProperties.

Import Allocation Scenario.

Implicit Types (a : SlaveID) (l : Allocation.t) (d o n : Resources).

Lemma ledger_eq l1 l2 :
  resources l1 = resources l2 → totals l1 = totals l2 → l1 = l2.
Proof. destruct l1, l2. simpl. by intros -> ->. Qed.

Lemma nonShared_all d : shared d = ∅ → nonShared d = d.
Proof.
  intros Hs. apply gmultiset_eq. intros r.
  apply (f_equal (multiplicity r)) in Hs. unfold shared in Hs.
  rewrite multiplicity_filter, multiplicity_empty in Hs.
  unfold nonShared. rewrite multiplicity_filter.
  repeat case_decide; try lia; tauto.
Qed.

Lemma counted_all d (P : Resource → Prop) `{!∀ r, Decision (P r)} :
  shared d = ∅ → nonShared d ⊎ filter P (shared d) = d.
Proof.
  intros Hs. rewrite (nonShared_all d Hs), Hs, gmultiset_filter_empty.
  by rewrite (right_id_L ∅ (⊎)).
Qed.

(** X1. On a ledger whose totals agree with the per-agent map, [update] of
    an agent that is present, with an old bundle its resources contain and a
    new bundle holding the same shared resources as the old one, passes its
    three checks and returns a ledger whose totals agree again. *)
Theorem update_keeps_totals_in_step a o n l (held : Resources) :
  consistent l → resources l !! a = Some held → o ⊆ held →
  shared o = shared n →
  ∃ l', update a o n l = Ok l' ∧ consistent l'.
Proof.
  intros Hc Hm Hsub Hsh.
  assert (Hq : fromScalarResources (scalars o) ⊆ totals l).
  { rewrite Hc. etrans; [by apply quantities_mono|].
    by apply aggregate_contains with a. }
  eexists. split; [by apply update_Ok|].
  apply (consistent_update a o n l); [done..|by apply update_Ok].
Qed.

Lemma update_keeps_totals_in_step_witness :
  consistent mixed ∧ resources mixed !! "A" = Some (twoD ⊎ oneCpu)
  ∧ oneCpu ⊆ twoD ⊎ oneCpu ∧ shared oneCpu = shared ∅
  ∧ ∃ l', update "A" oneCpu ∅ mixed = Ok l' ∧ consistent l'.
Proof.
  assert (Hsub : oneCpu ⊆ twoD ⊎ oneCpu).
  { intros x. rewrite multiplicity_disj_union. lia. }
  assert (Hsh : shared oneCpu = shared ∅).
  { rewrite shared_oneCpu. unfold shared. by rewrite gmultiset_filter_empty. }
  split; [exact consistent_mixed|]. split; [exact lookup_mixed|].
  split; [exact Hsub|]. split; [exact Hsh|].
  exact (update_keeps_totals_in_step "A" oneCpu ∅ mixed _
           consistent_mixed lookup_mixed Hsub Hsh).
Defined.

(** X2. [update] does not keep the totals in step with the per-agent map
    when it takes away one of several copies of a shared scalar resource: it
    completes, the agent still holds a copy, and the totals no longer count
    it. *)
Theorem update_puts_totals_out_of_step a l (held : Resources) r size :
  consistent l → resources l !! a = Some held →
  r_shared r = Some size → isScalar r → (2 ≤ multiplicity r held)%nat →
  ∃ l', update a {[+ r +]} ∅ l = Ok l'
    ∧ r ∈ at_ a (resources l') ∧ ¬ consistent l'.
Proof.
  intros Hc Hm Hs Hsc Hin.
  assert (Hsh : isShared r) by by apply (isShared_Some r size).
  assert (Hsub : {[+ r +]} ⊆ held).
  { apply singleton_subseteq, elem_of_multiplicity. lia. }
  assert (HQ : fromScalarResources (scalars {[+ r +]}) =
               Pos.to_nat size *: {[+ r_name r +]}).
  { rewrite <-(gmultiset_scalar_mul_1 {[+ r +]}).
    by apply quantities_shared_copies. }
  assert (Hq : fromScalarResources (scalars {[+ r +]}) ⊆ totals l).
  { rewrite Hc. etrans; [by apply quantities_mono|].
    by apply aggregate_contains with a. }
  assert (Hne : held ∖ {[+ r +]} ⊎ ∅ ≠ ∅).
  { intros He. apply (f_equal (multiplicity r)) in He.
    rewrite multiplicity_disj_union, multiplicity_difference,
      multiplicity_singleton_eq, !multiplicity_empty in He. lia. }
  eexists. split; [by apply update_Ok|].
  rewrite decide_False by done. cbn [resources totals].
  rewrite at_insert_eq. split.
  { apply elem_of_multiplicity.
    rewrite multiplicity_disj_union, multiplicity_difference,
      multiplicity_singleton_eq. lia. }
  unfold consistent. cbn [resources totals].
  rewrite aggregate_insert_any, (right_id_L ∅ (⊎)), quantities_empty.
  pose proof (quantities_sub held {[+ r +]} Hsub) as Hkeep.
  rewrite (last_copy_stays r held Hsh Hin), quantities_empty,
    (right_id_L ∅ (⊎)) in Hkeep.
  rewrite <-Hkeep, <-(aggregate_delete a held _ Hm), <-Hc.
  rewrite HQ in *. intros He.
  apply (f_equal (multiplicity (r_name r))) in He.
  specialize (Hq (r_name r)).
  rewrite multiplicity_disj_union, multiplicity_difference,
    multiplicity_empty in He.
  rewrite multiplicity_scalar_mul, multiplicity_singleton_eq in *. lia.
Qed.

Lemma update_puts_totals_out_of_step_witness :
  consistent twoCopies ∧ resources twoCopies !! "A" = Some twoD
  ∧ r_shared D = Some 10%positive ∧ isScalar D
  ∧ (2 ≤ multiplicity D twoD)%nat
  ∧ ∃ l', update "A" {[+ D +]} ∅ twoCopies = Ok l'
      ∧ D ∈ at_ "A" (resources l') ∧ ¬ consistent l'.
Proof.
  split; [exact consistent_twoCopies|]. split; [exact lookup_twoCopies|].
  split; [reflexivity|]. split; [reflexivity|].
  split; [exact two_copies_held|].
  exact (update_puts_totals_out_of_step "A" twoCopies twoD D 10%positive
           consistent_twoCopies lookup_twoCopies eq_refl eq_refl
           two_copies_held).
Defined.

Lemma noEmptyEntry_put a (X : Resources) l m' :
  noEmptyEntry l →
  m' = (if decide (X = ∅) then delete a (resources l)
        else <[a := X]> (resources l)) →
  ∀ a' held, m' !! a' = Some held → held ≠ ∅.
Proof.
  intros Hl -> a' held. case_decide as He.
  - destruct (decide (a = a')) as [<-|Hne].
    + by rewrite lookup_delete_eq.
    + rewrite lookup_delete_ne by done. apply Hl.
  - destruct (decide (a = a')) as [<-|Hne].
    + rewrite lookup_insert_eq. by intros [= <-].
    + rewrite lookup_insert_ne by done. apply Hl.
Qed.

(** X3. [unallocated] and [update] never leave an entry that holds nothing,
    and neither does [allocated] of a bundle that is not empty: a ledger
    without such entries stays without them. *)
Theorem no_entry_is_left_empty a d n l :
  noEmptyEntry l →
  (d ≠ ∅ → noEmptyEntry (add a d l))
  ∧ (∀ l', subtract a d l = Ok l' → noEmptyEntry l')
  ∧ (∀ l', update a d n l = Ok l' → noEmptyEntry l').
Proof.
  intros Hl. split; [|split].
  - intros Hd a' held. rewrite add_resources.
    destruct (decide (a = a')) as [<-|Hne].
    + rewrite lookup_insert_eq. intros [= <-] He.
      apply Hd. apply gmultiset_eq. intros x.
      apply (f_equal (multiplicity x)) in He.
      rewrite multiplicity_disj_union, multiplicity_empty in *. lia.
    + rewrite lookup_insert_ne by done. apply Hl.
  - intros l' Hs.
    destruct (subtract_inv _ _ _ _ Hs) as (held & Hm & Hsub & Hq).
    rewrite (subtract_Ok _ _ _ _ Hm Hsub Hq) in Hs. injection Hs as <-.
    intros a0 X0. cbn [resources].
    exact (noEmptyEntry_put a (held ∖ d) l _ Hl eq_refl a0 X0).
  - intros l' Hu.
    destruct (update_inv _ _ _ _ _ Hu) as (held & Hm & Hsub & Hq).
    rewrite (update_Ok _ _ _ _ _ Hm Hsub Hq) in Hu. injection Hu as <-.
    intros a0 X0. cbn [resources].
    exact (noEmptyEntry_put a (held ∖ d ⊎ n) l _ Hl eq_refl a0 X0).
Qed.

Lemma no_entry_is_left_empty_witness :
  noEmptyEntry empty ∧ oneD ≠ ∅ ∧ noEmptyEntry (add "A" oneD empty)
  ∧ ∃ l', subtract "A" oneD (add "A" oneD (add "A" oneD empty)) = Ok l'
      ∧ noEmptyEntry l'.
Proof.
  assert (H0 : noEmptyEntry empty).
  { intros a held Hm. cbn in Hm. by rewrite lookup_empty in Hm. }
  assert (Hd : oneD ≠ ∅) by apply gmultiset_non_empty_singleton.
  pose proof (proj1 (no_entry_is_left_empty "A" oneD ∅ empty H0) Hd) as H1.
  split; [exact H0|]. split; [exact Hd|]. split; [exact H1|].
  destruct (subtract_after_add "A" oneD (add "A" oneD empty)) as [l' Hs].
  exists l'. split; [exact Hs|].
  exact (proj1 (proj2
    (no_entry_is_left_empty "A" oneD ∅ (add "A" oneD (add "A" oneD empty))
       (proj1 (no_entry_is_left_empty "A" oneD ∅ (add "A" oneD empty) H1)
          Hd))) l' Hs).
Defined.

(** X4. The three mutators touch the entry of their own agent only: what any
    other agent holds is the same before and after. *)
Theorem other_agents_are_untouched a a' d n l :
  a ≠ a' →
  resources (add a d l) !! a' = resources l !! a'
  ∧ (∀ l', subtract a d l = Ok l' → resources l' !! a' = resources l !! a')
  ∧ (∀ l', update a d n l = Ok l' → resources l' !! a' = resources l !! a').
Proof.
  intros Hne. split; [|split].
  - rewrite add_resources. by apply lookup_insert_ne.
  - intros l' Hs.
    destruct (subtract_inv _ _ _ _ Hs) as (held & Hm & Hsub & Hq).
    rewrite (subtract_Ok _ _ _ _ Hm Hsub Hq) in Hs. injection Hs as <-.
    cbn [resources]. case_decide.
    + by apply lookup_delete_ne.
    + by apply lookup_insert_ne.
  - intros l' Hu.
    destruct (update_inv _ _ _ _ _ Hu) as (held & Hm & Hsub & Hq).
    rewrite (update_Ok _ _ _ _ _ Hm Hsub Hq) in Hu. injection Hu as <-.
    cbn [resources]. case_decide.
    + by apply lookup_delete_ne.
    + by apply lookup_insert_ne.
Qed.

Lemma other_agents_are_untouched_witness :
  "A" ≠ "B"
  ∧ resources (add "A" oneD twoCopies) !! "B" = resources twoCopies !! "B"
  ∧ ∃ l', subtract "A" oneD (add "A" oneD twoCopies) = Ok l'
      ∧ resources l' !! "B" = resources (add "A" oneD twoCopies) !! "B".
Proof.
  assert (Hne : "A" ≠ "B") by discriminate.
  split; [exact Hne|].
  split;
    [exact (proj1 (other_agents_are_untouched "A" "B" oneD ∅ twoCopies Hne))|].
  destruct (subtract_after_add "A" oneD twoCopies) as [l' Hs].
  exists l'. split; [exact Hs|].
  exact (proj1 (proj2
    (other_agents_are_untouched "A" "B" oneD ∅ (add "A" oneD twoCopies) Hne))
    l' Hs).
Defined.

(** X5. [allocated] undoes [unallocated]: when [unallocated] of a bundle
    returns, [allocated] of the same bundle on the same agent gives back the
    ledger there was before, entry and totals alike. *)
Theorem unallocated_allocated_restores a d l l' :
  subtract a d l = Ok l' → add a d l' = l.
Proof.
  intros Hs.
  destruct (subtract_inv _ _ _ _ Hs) as (held & Hm & Hsub & Hq).
  rewrite (subtract_Ok _ _ _ _ Hm Hsub Hq) in Hs. injection Hs as <-.
  assert (Hheld : held ∖ d ⊎ d = held) by bag_solver.
  apply ledger_eq.
  - rewrite add_resources. cbn [resources]. case_decide as He.
    + rewrite at_delete_eq, (left_id_L ∅ (⊎)).
      rewrite He, (left_id_L ∅ (⊎)) in Hheld. rewrite Hheld.
      by apply insert_delete_id.
    + rewrite at_insert_eq, insert_insert_eq, Hheld. by apply insert_id.
  - rewrite add_totals. cbn [resources totals].
    assert (at_ a (if decide (held ∖ d = ∅) then delete a (resources l)
                   else <[a := held ∖ d]> (resources l)) = held ∖ d) as ->.
    { case_decide as He.
      - by rewrite at_delete_eq, He.
      - by rewrite at_insert_eq. }
    bag_solver.
Qed.

Lemma unallocated_allocated_restores_witness :
  ∃ l', subtract "A" oneD twoCopies = Ok l' ∧ add "A" oneD l' = twoCopies.
Proof.
  destruct (subtract_after_add "A" oneD (add "A" oneD empty)) as [l' Hs].
  exists l'. split; [exact Hs|].
  exact (unallocated_allocated_restores "A" oneD twoCopies l' Hs).
Defined.

(** X6. [update] with the same bundle as old and as new changes nothing,
    provided the agent holds something. On an entry that holds nothing it
    erases the entry. *)
Theorem update_by_the_same_bundle a o l (held : Resources) :
  resources l !! a = Some held → o ⊆ held →
  fromScalarResources (scalars o) ⊆ totals l →
  (held ≠ ∅ → update a o o l = Ok l)
  ∧ (held = ∅ → update a o o l = Ok (mk (delete a (resources l)) (totals l))).
Proof.
  intros Hm Hsub Hq.
  assert (Hheld : held ∖ o ⊎ o = held) by bag_solver.
  rewrite (update_Ok _ _ _ _ _ Hm Hsub Hq), Hheld.
  assert (Ht : totals l ∖ fromScalarResources (scalars o)
                 ⊎ fromScalarResources (scalars o) = totals l) by bag_solver.
  rewrite Ht. split; intros He.
  - rewrite decide_False by done. f_equal. apply ledger_eq; [|done].
    by apply insert_id.
  - by rewrite decide_True.
Qed.

Lemma update_by_the_same_bundle_witness :
  resources twoCopies !! "A" = Some twoD ∧ oneD ⊆ twoD
  ∧ fromScalarResources (scalars oneD) ⊆ totals twoCopies
  ∧ twoD ≠ ∅ ∧ update "A" oneD oneD twoCopies = Ok twoCopies.
Proof.
  assert (Hsub : oneD ⊆ twoD).
  { intros x. unfold twoD. rewrite multiplicity_disj_union. lia. }
  assert (Hq : fromScalarResources (scalars oneD) ⊆ totals twoCopies).
  { exact (quantities_within_totals "A" oneD twoCopies twoD
             consistent_twoCopies lookup_twoCopies Hsub). }
  assert (Hne : twoD ≠ ∅).
  { apply (nonempty_of_elem D), elem_of_multiplicity.
    pose proof two_copies_held. lia. }
  split; [exact lookup_twoCopies|]. split; [exact Hsub|].
  split; [exact Hq|]. split; [exact Hne|].
  exact (proj1 (update_by_the_same_bundle "A" oneD twoCopies twoD
                  lookup_twoCopies Hsub Hq) Hne).
Defined.

(** X7. For bundles without shared resources and a new bundle that is not
    empty, [update] is [unallocated] of old followed by [allocated] of new:
    the same ledger when it returns, the same check when it dies. *)
Theorem update_is_unallocated_then_allocated a o n l :
  shared o = ∅ → shared n = ∅ → n ≠ ∅ →
  update a o n l = bind (subtract a o l) (fun l' => Ok (add a n l')).
Proof.
  intros Ho Hn Hne. unfold update, subtract.
  destruct (resources l !! a) as [held|] eqn:Hm; [|done].
  case_decide as Hsub; [|done].
  rewrite !at_insert_eq, insert_insert_eq.
  rewrite (counted_all o _ Ho).
  case_decide as Hq; [|done].
  assert (Hnew : held ∖ o ⊎ n ≠ ∅).
  { intros He. apply Hne. apply gmultiset_eq. intros x.
    apply (f_equal (multiplicity x)) in He.
    rewrite multiplicity_disj_union, multiplicity_empty in *. lia. }
  rewrite (decide_False (P := held ∖ o ⊎ n = ∅)) by done.
  case_decide as He; cbn [bind]; f_equal; apply ledger_eq.
  - rewrite add_resources. cbn [resources].
    by rewrite delete_insert_eq, at_delete_eq, He, insert_delete_eq.
  - rewrite add_totals. cbn [resources totals].
    by rewrite (counted_all n _ Hn).
  - rewrite add_resources. cbn [resources].
    by rewrite at_insert_eq, insert_insert_eq.
  - rewrite add_totals. cbn [resources totals].
    by rewrite (counted_all n _ Hn).
Qed.

Lemma update_is_unallocated_then_allocated_witness :
  shared oneCpu = ∅ ∧ shared (oneCpu ⊎ oneCpu) = ∅ ∧ oneCpu ⊎ oneCpu ≠ ∅
  ∧ update "A" oneCpu (oneCpu ⊎ oneCpu) mixed
    = bind (subtract "A" oneCpu mixed)
        (fun l' => Ok (add "A" (oneCpu ⊎ oneCpu) l')).
Proof.
  assert (Hn : shared (oneCpu ⊎ oneCpu) = ∅).
  { unfold shared. rewrite gmultiset_filter_disj_union.
    fold (shared oneCpu). rewrite shared_oneCpu.
    by rewrite (left_id_L ∅ (⊎)). }
  assert (Hne : oneCpu ⊎ oneCpu ≠ ∅).
  { apply (nonempty_of_elem cpu), elem_of_multiplicity. unfold oneCpu.
    rewrite multiplicity_disj_union, multiplicity_singleton_eq. lia. }
  split; [exact shared_oneCpu|]. split; [exact Hn|]. split; [exact Hne|].
  exact (update_is_unallocated_then_allocated "A" oneCpu (oneCpu ⊎ oneCpu)
           mixed shared_oneCpu Hn Hne).
Defined.

Lemma counted_split (X d1 d2 : Resources) :
  fromScalarResources (scalars
    (nonShared (d1 ⊎ d2) ⊎ filter (fun r => r ∉ X) (shared (d1 ⊎ d2))))
  = fromScalarResources (scalars
      (nonShared d1 ⊎ filter (fun r => r ∉ X) (shared d1)))
    ⊎ fromScalarResources (scalars
        (nonShared d2 ⊎ filter (fun r => r ∉ X ⊎ d1) (shared d2))).
Proof.
  pose proof (quantities_add X (d1 ⊎ d2)) as H12.
  pose proof (quantities_add X d1) as H1.
  pose proof (quantities_add (X ⊎ d1) d2) as H2.
  rewrite (assoc_L (⊎)) in H12. rewrite H2, H1 in H12.
  rewrite <-(assoc_L (⊎)) in H12.
  by apply (inj (fromScalarResources (scalars X) ⊎.)) in H12.
Qed.

(** X8. Allocating a bundle in one call or in two pieces gives the same
    ledger: a shared resource that comes in both pieces is counted by the
    first and not again by the second. *)
Theorem allocated_in_pieces a d1 d2 l :
  add a (d1 ⊎ d2) l = add a d2 (add a d1 l).
Proof.
  apply ledger_eq.
  - rewrite !add_resources, at_insert_eq, insert_insert_eq.
    by rewrite (assoc_L (⊎)).
  - rewrite !add_totals, add_resources, at_insert_eq.
    rewrite counted_split. by rewrite (assoc_L (⊎)).
Qed.

(** X9. The order of two allocations does not matter, on one agent or on
    two. *)
Theorem allocated_in_any_order a1 a2 d1 d2 l :
  add a1 d1 (add a2 d2 l) = add a2 d2 (add a1 d1 l).
Proof.
  destruct (decide (a1 = a2)) as [<-|Hne].
  - pose proof (counted_split (at_ a1 (resources l)) d1 d2) as H12.
    pose proof (counted_split (at_ a1 (resources l)) d2 d1) as H21.
    rewrite (comm_L (⊎) d1 d2), H21 in H12.
    apply ledger_eq.
    + rewrite !add_resources, !at_insert_eq, !insert_insert_eq.
      f_equal. bag_solver.
    + rewrite !add_totals, !add_resources, !at_insert_eq, <-!(assoc_L (⊎)).
      by rewrite H12.
  - apply ledger_eq.
    + rewrite !add_resources, !at_insert_ne by done.
      by apply insert_insert_ne.
    + rewrite !add_totals, !add_resources, !at_insert_ne by done.
      bag_solver.
Qed.

(** X10. Any number of copies of a shared scalar resource that the agent
    does not hold yet, allocated in one call, raises the totals by the size
    of the resource once; the agent then holds that number of copies. *)
Theorem copies_in_one_call_count_once a l r size (k : nat) :
  r_shared r = Some size → isScalar r → k ≠ 0%nat →
  r ∉ at_ a (resources l) →
  totals (add a (k *: {[+ r +]}) l)
    = totals l ⊎ Pos.to_nat size *: {[+ r_name r +]}
  ∧ multiplicity r (at_ a (resources (add a (k *: {[+ r +]}) l))) = k.
Proof.
  intros Hs Hsc Hk Hin.
  assert (Hsh : isShared r) by by apply (isShared_Some r size).
  split.
  - rewrite add_totals.
    assert (nonShared (k *: {[+ r +]})
              ⊎ filter (fun r' => r' ∉ at_ a (resources l))
                  (shared (k *: {[+ r +]}))
            = k *: {[+ r +]}) as ->.
    { apply gmultiset_eq. intros r'. res_pointwise.
      rewrite !multiplicity_scalar_mul.
      destruct (decide (r' = r)) as [->|Hne].
      - repeat case_decide; try lia; tauto.
      - rewrite (multiplicity_singleton_ne r' r Hne).
        repeat case_decide; lia. }
    by rewrite (quantities_shared_copies r size k Hs Hsc Hk).
  - rewrite add_resources, at_insert_eq.
    rewrite multiplicity_disj_union, multiplicity_scalar_mul,
      multiplicity_singleton_eq.
    apply not_elem_of_multiplicity in Hin. lia.
Qed.

Lemma copies_in_one_call_count_once_witness :
  r_shared D = Some 10%positive ∧ isScalar D ∧ 3%nat ≠ 0%nat
  ∧ (D ∉ at_ "A" (resources empty))
  ∧ totals (add "A" (3 *: {[+ D +]}) empty)
    = totals empty ⊎ Pos.to_nat 10 *: {[+ r_name D +]}
  ∧ multiplicity D (at_ "A" (resources (add "A" (3 *: {[+ D +]}) empty)))
    = 3%nat.
Proof.
  assert (Hk : 3%nat ≠ 0%nat) by discriminate.
  assert (Hin : D ∉ at_ "A" (resources empty)).
  { rewrite (at_None "A" (resources empty)) by apply lookup_empty.
    apply gmultiset_not_elem_of_empty. }
  split; [reflexivity|]. split; [reflexivity|]. split; [exact Hk|].
  split; [exact Hin|].
  exact (copies_in_one_call_count_once "A" empty D 10%positive 3
           eq_refl eq_refl Hk Hin).
Defined.

(** X17. On a ledger whose totals agree with the per-agent map the totals
    check of [unallocated] never fires: for an agent that is present and a
    bundle its resources contain the call returns, and the totals of the
    ledger it returns agree again. *)
Theorem unallocated_completes_on_consistent_ledger a d l (held : Resources) :
  consistent l → resources l !! a = Some held → d ⊆ held →
  ∃ l', subtract a d l = Ok l' ∧ consistent l'.
Proof.
  intros Hc Hm Hsub.
  assert (Hq : fromScalarResources (scalars
    (nonShared d ⊎ filter (fun r => r ∉ held ∖ d) (shared d))) ⊆ totals l).
  { rewrite Hc. etrans; [|by apply aggregate_contains with a].
    rewrite (quantities_sub held d Hsub). multiset_solver. }
  eexists. split; [by apply subtract_Ok|].
  apply (consistent_subtract a d l); [done|by apply subtract_Ok].
Qed.

Lemma unallocated_completes_on_consistent_ledger_witness :
  consistent mixed ∧ resources mixed !! "A" = Some (twoD ⊎ oneCpu)
  ∧ oneD ⊎ oneCpu ⊆ twoD ⊎ oneCpu
  ∧ ∃ l', subtract "A" (oneD ⊎ oneCpu) mixed = Ok l' ∧ consistent l'.
Proof.
  assert (Hsub : oneD ⊎ oneCpu ⊆ twoD ⊎ oneCpu).
  { intros x. unfold twoD. rewrite !multiplicity_disj_union. lia. }
  split; [exact consistent_mixed|]. split; [exact lookup_mixed|].
  split; [exact Hsub|].
  exact (unallocated_completes_on_consistent_ledger "A" (oneD ⊎ oneCpu) mixed
           _ consistent_mixed lookup_mixed Hsub).
Defined.

End LedgerProperties.

(** ** Further properties of the nodes *)

Section NodeProperties.

Import Node.

Implicit Types (h : store) (n c : Node.t) (cs : list ptr).

Lemma setChildren_same n : setChildren n (children n) = n.
Proof. by destruct n. Qed.

Lemma setChildren_twice n cs cs' :
  setChildren (setChildren n cs) cs' = setChildren n cs'.
Proof. done. Qed.

Lemma eraseFirst_head x cs : eraseFirst x (x :: cs) = cs.
Proof. simpl. by rewrite decide_True. Qed.

Lemma eraseFirst_last x cs : x ∉ cs → eraseFirst x (cs ++ [x]) = cs.
Proof.
  induction cs as [|y cs IH]; simpl.
  - intros _. by rewrite decide_True.
  - rewrite not_elem_of_cons. intros [Hne Hx].
    rewrite decide_False by congruence. by rewrite IH.
Qed.

(** X11. [removeChild] undoes [addChild]: when [addChild] returns,
    [removeChild] of the same child gives back the store there was before. *)
Theorem addChild_removeChild_restores h self child h' :
  addChild self child h = Some h' → removeChild self child h' = Some h.
Proof.
  intros Ha.
  destruct (addChild_inv _ _ _ _ Ha) as (n & c & Hn & Hc & Hin).
  rewrite (addChild_Some _ _ _ _ _ Hn Hc Hin) in Ha. injection Ha as <-.
  set (cs := if decide (kind c = INACTIVE_LEAF)
             then (children n ++ [child])%list else child :: children n).
  assert (Hmem : child ∈ cs).
  { unfold cs. case_decide.
    - apply elem_of_app. right. by apply list_elem_of_singleton.
    - apply elem_of_cons. by left. }
  assert (Hback : eraseFirst child cs = children n).
  { unfold cs. case_decide.
    - by apply eraseFirst_last.
    - apply eraseFirst_head. }
  rewrite (removeChild_Some _ self child (setChildren n cs));
    [|apply lookup_insert_eq|done].
  cbn [children setChildren] in *. rewrite Hback.
  rewrite insert_insert_eq. f_equal.
  rewrite setChildren_twice, setChildren_same. by apply insert_id.
Qed.

Lemma addChild_removeChild_restores_witness :
  addChild 2%positive 1%positive example =
    Some (<[2%positive := mk "a" "a" None INTERNAL (Some 1%positive)
              [1%positive; 4%positive; 3%positive] Allocation.empty]>
            example)
  ∧ removeChild 2%positive 1%positive
      (<[2%positive := mk "a" "a" None INTERNAL (Some 1%positive)
           [1%positive; 4%positive; 3%positive] Allocation.empty]> example)
    = Some example.
Proof.
  assert (Ha : addChild 2%positive 1%positive example =
    Some (<[2%positive := mk "a" "a" None INTERNAL (Some 1%positive)
              [1%positive; 4%positive; 3%positive] Allocation.empty]>
            example)) by (vm_compute; reflexivity).
  split; [exact Ha|].
  exact (addChild_removeChild_restores example 2%positive 1%positive _ Ha).
Defined.

Lemma eraseFirst_Permutation x cs : x ∈ cs → x :: eraseFirst x cs ≡ₚ cs.
Proof.
  induction cs as [|y cs IH]; [by intros ?%elem_of_nil|].
  simpl. case_decide as Hd; [by subst|].
  rewrite elem_of_cons. intros [->|Hx]; [done|].
  rewrite Permutation_swap. by rewrite IH.
Qed.

Lemma eraseFirst_sublist x cs : eraseFirst x cs `sublist_of` cs.
Proof.
  induction cs as [|y cs IH]; simpl; [done|].
  case_decide; [by apply sublist_cons|by apply sublist_skip].
Qed.

Lemma eraseFirst_length x cs :
  x ∈ cs → length cs = S (length (eraseFirst x cs)).
Proof.
  induction cs as [|y cs IH]; [by intros ?%elem_of_nil|].
  simpl. case_decide as Hd; [done|].
  rewrite elem_of_cons. intros [->|Hx]; [done|]. simpl. by rewrite IH.
Qed.

(** X12. Removing a child and adding it again moves it: to the end of the
    vector when it is an inactive leaf, to the beginning otherwise. In a
    vector without duplicates both calls return, the other children keep
    their order, and the vector holds the same children as before. *)
Theorem removeChild_addChild_moves h self child n c :
  h !! self = Some n → h !! child = Some c →
  NoDup (children n) → child ∈ children n →
  let rest := eraseFirst child (children n) in
  let moved := if decide (kind c = INACTIVE_LEAF)
               then (rest ++ [child])%list else child :: rest in
  ∃ h1, removeChild self child h = Some h1
    ∧ addChild self child h1 = Some (<[self := setChildren n moved]> h)
    ∧ moved ≡ₚ children n.
Proof.
  intros Hn Hc Hnd Hin rest moved.
  exists (<[self := setChildren n rest]> h).
  split; [by apply removeChild_Some|]. split.
  - assert (Hc1 : ∃ c1, <[self := setChildren n rest]> h !! child = Some c1
                        ∧ kind c1 = kind c).
    { destruct (decide (self = child)) as [<-|Hne].
      - rewrite lookup_insert_eq. eexists. split; [done|].
        rewrite Hn in Hc. by injection Hc as <-.
      - rewrite lookup_insert_ne by done. eauto. }
    destruct Hc1 as (c1 & Hc1 & Hk).
    rewrite (addChild_Some _ self child (setChildren n rest) c1);
      [|apply lookup_insert_eq|done|by apply not_elem_of_eraseFirst].
    rewrite insert_insert_eq, Hk. done.
  - unfold moved. case_decide.
    + rewrite <-Permutation_cons_append. by apply eraseFirst_Permutation.
    + by apply eraseFirst_Permutation.
Qed.

Lemma removeChild_addChild_moves_witness :
  let a := mk "a" "a" None INTERNAL (Some 1%positive)
             [4%positive; 3%positive] Allocation.empty in
  example !! 2%positive = Some a ∧ example !! 3%positive =
    Some (mk "." "a/." None INACTIVE_LEAF (Some 2%positive) []
            Allocation.empty)
  ∧ NoDup [4%positive; 3%positive] ∧ (3%positive ∈ [4%positive; 3%positive])
  ∧ ∃ h1, removeChild 2%positive 3%positive example = Some h1
      ∧ addChild 2%positive 3%positive h1
        = Some (<[2%positive := setChildren a [4%positive; 3%positive]]>
                  example)
      ∧ [4%positive; 3%positive] ≡ₚ [4%positive; 3%positive].
Proof.
  intros a.
  assert (H2 : example !! 2%positive = Some a) by (vm_compute; reflexivity).
  assert (H3 : example !! 3%positive =
    Some (mk "." "a/." None INACTIVE_LEAF (Some 2%positive) []
            Allocation.empty)) by (vm_compute; reflexivity).
  assert (Hnd : NoDup [4%positive; 3%positive]).
  { apply (bool_decide_unpack _). vm_compute. exact I. }
  assert (Hin : 3%positive ∈ [4%positive; 3%positive]).
  { apply elem_of_cons. right. apply elem_of_cons. by left. }
  split; [exact H2|]. split; [exact H3|]. split; [exact Hnd|].
  split; [exact Hin|].
  exact (removeChild_addChild_moves example 2%positive 3%positive a _
           H2 H3 Hnd Hin).
Defined.

(** X13. [removeChild] takes out one position of the vector and keeps the
    others in their order, so the vector still has its inactive leaves
    last. *)
Theorem removeChild_keeps_the_order h self child h' :
  removeChild self child h = Some h' →
  ∃ n n', h !! self = Some n ∧ h' !! self = Some n'
    ∧ children n' `sublist_of` children n
    ∧ length (children n) = S (length (children n'))
    ∧ (ordered h → ordered h').
Proof.
  intros Hr.
  destruct (removeChild_inv _ _ _ _ Hr) as (n & Hn & Hin).
  pose proof Hr as Hr'.
  rewrite (removeChild_Some _ _ _ _ Hn Hin) in Hr. injection Hr as <-.
  exists n, (setChildren n (eraseFirst child (children n))).
  split; [done|]. split; [apply lookup_insert_eq|].
  split; [apply eraseFirst_sublist|].
  split; [by apply eraseFirst_length|].
  by apply (ordered_removeChild h self child).
Qed.

Lemma removeChild_keeps_the_order_witness :
  removeChild 2%positive 4%positive example =
    Some (<[2%positive := mk "a" "a" None INTERNAL (Some 1%positive)
              [3%positive] Allocation.empty]> example)
  ∧ ∃ n n', example !! 2%positive = Some n
      ∧ <[2%positive := mk "a" "a" None INTERNAL (Some 1%positive)
            [3%positive] Allocation.empty]> example !! 2%positive = Some n'
      ∧ children n' `sublist_of` children n
      ∧ length (children n) = S (length (children n')).
Proof.
  assert (Hr : removeChild 2%positive 4%positive example =
    Some (<[2%positive := mk "a" "a" None INTERNAL (Some 1%positive)
              [3%positive] Allocation.empty]> example))
    by (vm_compute; reflexivity).
  split; [exact Hr|].
  destruct (removeChild_keeps_the_order example 2%positive 4%positive _ Hr)
    as (n & n' & Hn & Hn' & Hsub & Hlen & _).
  exists n, n'. split; [exact Hn|]. split; [exact Hn'|].
  split; [exact Hsub|exact Hlen].
Defined.

(** X14. A virtual leaf, constructed with the name "." and a leaf kind under
    a parent in the store, has the parent's path as its client path, while
    its own cached path carries the trailing "." label: "." directly under a
    node without parent, the parent's path followed by "/." otherwise. *)
Theorem virtual_leaf_paths h p pn _kind :
  h !! p = Some pn → leafKind _kind = true →
  ∃ n, new h "." _kind (Some p) = Some n
    ∧ clientPath h n = Some (path pn)
    ∧ path n = match parent pn with
               | None => "."
               | Some _ => path pn +:+ "/."
               end.
Proof.
  intros Hp Hk. eexists. split; [by apply new_Some|].
  split; [|done].
  unfold clientPath. cbn [name kind parent].
  by rewrite decide_True, Hk, Hp.
Qed.

Lemma virtual_leaf_paths_witness :
  example !! 2%positive =
    Some (mk "a" "a" None INTERNAL (Some 1%positive) [4%positive; 3%positive]
            Allocation.empty)
  ∧ leafKind INACTIVE_LEAF = true
  ∧ ∃ n, new example "." INACTIVE_LEAF (Some 2%positive) = Some n
      ∧ clientPath example n = Some "a" ∧ path n = "a/.".
Proof.
  assert (H2 : example !! 2%positive =
    Some (mk "a" "a" None INTERNAL (Some 1%positive) [4%positive; 3%positive]
            Allocation.empty)) by (vm_compute; reflexivity).
  split; [exact H2|]. split; [reflexivity|].
  exact (virtual_leaf_paths example 2%positive _ INACTIVE_LEAF H2 eq_refl).
Defined.

Lemma walk_setChildren h self n cs p segments :
  h !! self = Some n → walk h p segments →
  walk (<[self := setChildren n cs]> h) p segments.
Proof.
  intros Hn. induction 1 as [p m Hm Hpar|p m q segments Hm Hpar _ IH].
  - destruct (decide (self = p)) as [<-|Hne].
    + apply (walk_root _ self (setChildren n cs)); [apply lookup_insert_eq|].
      rewrite Hn in Hm. by injection Hm as <-.
    + apply (walk_root _ p m); [by rewrite lookup_insert_ne|done].
  - destruct (decide (self = p)) as [<-|Hne].
    + rewrite Hn in Hm. injection Hm as <-.
      by apply (walk_child _ self (setChildren n cs) q segments);
        [apply lookup_insert_eq|..].
    + by apply (walk_child _ p m q segments); [rewrite lookup_insert_ne|..].
Qed.

Lemma walk_fresh h q m p segments :
  h !! q = None → walk h p segments → walk (<[q := m]> h) p segments.
Proof.
  intros Hq. induction 1 as [p n Hn Hpar|p n r segments Hn Hpar _ IH].
  - apply (walk_root _ p n); [|done].
    rewrite lookup_insert_ne; [done|congruence].
  - apply (walk_child _ p n r segments); [|done..].
    rewrite lookup_insert_ne; [done|congruence].
Qed.

Lemma pathsJoined_setChildren h self n cs :
  h !! self = Some n → pathsJoined h →
  pathsJoined (<[self := setChildren n cs]> h).
Proof.
  intros Hn Hj p m Hm.
  assert (∃ m0, h !! p = Some m0 ∧ path m = path m0) as (m0 & Hm0 & Hpath).
  { destruct (decide (self = p)) as [<-|Hne].
    - rewrite lookup_insert_eq in Hm. injection Hm as <-. eauto.
    - rewrite lookup_insert_ne in Hm by done. eauto. }
  destruct (Hj p m0 Hm0) as (segments & Hw & Hp).
  exists segments. split; [by apply walk_setChildren|congruence].
Qed.

(** X15. In every store grown by constructing nodes and by [addChild] and
    [removeChild], the cached path of every node is the "/"-join of the names
    on the walk from the root down to the node. *)
Theorem cached_paths_follow_the_walk h :
  grown h → pathsJoined h.
Proof.
  induction 1 as [|h q nm k par m Hg IH Hq Hnew
                  |h self child h' _ IH Ha|h self child h' _ IH Hr].
  - intros p n Hp. by rewrite lookup_empty in Hp.
  - assert (Hown : ∃ segments,
      walk (<[q := m]> h) q segments ∧ path m = joinAll "/" segments).
    { destruct par as [p|].
      - assert (∃ pn, h !! p = Some pn) as [pn Hp].
        { unfold new in Hnew. destruct (h !! p); [eauto|done]. }
        rewrite (new_Some _ _ _ _ _ Hp) in Hnew. injection Hnew as Hm.
        assert (Hname : name m = nm) by by rewrite <-Hm.
        assert (Hpar : parent m = Some p) by by rewrite <-Hm.
        assert (Hpm : path m = match parent pn with
                               | None => nm
                               | Some _ => path pn +:+ "/" +:+ nm
                               end) by by rewrite <-Hm.
        destruct (IH p pn Hp) as (segments & Hw & Hpath).
        destruct (walk_root_inv _ _ _ _ Hw Hp) as [Hroot Hinner].
        exists (segments ++ [nm])%list. split.
        + rewrite <-Hname.
          apply (walk_child _ q m p segments);
            [apply lookup_insert_eq|done|by apply walk_fresh].
        + rewrite Hpm. destruct (parent pn) as [r|].
          * rewrite joinAll_snoc by eauto. by rewrite Hpath.
          * by rewrite (Hroot eq_refl).
      - injection Hnew as <-. exists []. split; [|done].
        by apply (walk_root _ q _ (lookup_insert_eq _ _ _)). }
    intros p n Hp. destruct (decide (q = p)) as [<-|Hne].
    + rewrite lookup_insert_eq in Hp. by injection Hp as <-.
    + rewrite lookup_insert_ne in Hp by done.
      destruct (IH p n Hp) as (segments & Hw & Hpath).
      exists segments. split; [by apply walk_fresh|done].
  - destruct (addChild_inv _ _ _ _ Ha) as (n & c & Hn & Hc & Hin).
    rewrite (addChild_Some _ _ _ _ _ Hn Hc Hin) in Ha. injection Ha as <-.
    by apply pathsJoined_setChildren.
  - destruct (removeChild_inv _ _ _ _ Hr) as (n & Hn & Hin).
    rewrite (removeChild_Some _ _ _ _ Hn Hin) in Hr. injection Hr as <-.
    by apply pathsJoined_setChildren.
Qed.

Lemma cached_paths_follow_the_walk_witness :
  let root := mk "" "" None INTERNAL None [] Allocation.empty in
  let a := mk "a" "a" None INTERNAL (Some 1%positive) [] Allocation.empty in
  let b := mk "b" "a/b" None ACTIVE_LEAF (Some 2%positive) []
             Allocation.empty in
  let h := <[3%positive := b]> (<[2%positive := a]> (<[1%positive := root]> ∅))
  in grown h ∧ pathsJoined h.
Proof.
  intros root a b h.
  assert (Hg : grown h).
  { apply (grown_new _ 3%positive "b" ACTIVE_LEAF (Some 2%positive));
      [|vm_compute; reflexivity..].
    apply (grown_new _ 2%positive "a" INTERNAL (Some 1%positive));
      [|vm_compute; reflexivity..].
    apply (grown_new ∅ 1%positive "" INTERNAL None);
      [constructor|vm_compute; reflexivity..]. }
  split; [exact Hg|]. exact (cached_paths_follow_the_walk h Hg).
Defined.

(** X16. [isLeaf()] passes its check on every node fresh from the
    constructor and tells whether its kind is a leaf kind. [addChild] does
    not look at the kind of the node it extends: after it returns for a node
    of a leaf kind, [isLeaf()] on that node dies on its check. *)
Theorem isLeaf_check h :
  (∀ _name _kind _parent n,
     new h _name _kind _parent = Some n → isLeaf n = Some (leafKind _kind))
  ∧ (∀ self child n h',
       h !! self = Some n → leafKind (kind n) = true →
       addChild self child h = Some h' →
       ∃ n', h' !! self = Some n' ∧ kind n' = kind n ∧ isLeaf n' = None).
Proof.
  split.
  - intros nm k par n Hnew. unfold isLeaf.
    rewrite (new_children _ _ _ _ _ Hnew).
    assert (kind n = k) as ->.
    { unfold new in Hnew. destruct par as [p|]; [|by injection Hnew as <-].
      destruct (h !! p); [|done]. by injection Hnew as <-. }
    by destruct (leafKind k).
  - intros self child n h' Hn Hk Ha.
    destruct (addChild_inv _ _ _ _ Ha) as (n0 & c & Hn0 & Hc & Hin).
    rewrite Hn in Hn0. injection Hn0 as <-.
    rewrite (addChild_Some _ _ _ _ _ Hn Hc Hin) in Ha. injection Ha as <-.
    eexists. split; [apply lookup_insert_eq|]. split; [done|].
    unfold isLeaf. cbn [kind children setChildren]. rewrite Hk.
    rewrite decide_False; [done|].
    case_decide; [|done]. intros He. by apply app_eq_nil in He as [_ ?].
Qed.

Lemma isLeaf_check_witness :
  example !! 4%positive =
    Some (mk "b" "a/b" None ACTIVE_LEAF (Some 2%positive) []
            Allocation.empty)
  ∧ leafKind ACTIVE_LEAF = true
  ∧ addChild 4%positive 3%positive example =
      Some (<[4%positive := mk "b" "a/b" None ACTIVE_LEAF (Some 2%positive)
                [3%positive] Allocation.empty]> example)
  ∧ ∃ n', <[4%positive := mk "b" "a/b" None ACTIVE_LEAF (Some 2%positive)
              [3%positive] Allocation.empty]> example !! 4%positive = Some n'
      ∧ kind n' = ACTIVE_LEAF ∧ isLeaf n' = None.
Proof.
  assert (H4 : example !! 4%positive =
    Some (mk "b" "a/b" None ACTIVE_LEAF (Some 2%positive) []
            Allocation.empty)) by (vm_compute; reflexivity).
  assert (Ha : addChild 4%positive 3%positive example =
    Some (<[4%positive := mk "b" "a/b" None ACTIVE_LEAF (Some 2%positive)
              [3%positive] Allocation.empty]> example))
    by (vm_compute; reflexivity).
  split; [exact H4|]. split; [reflexivity|]. split; [exact Ha|].
  exact (proj2 (isLeaf_check example) 4%positive 3%positive _ _
           H4 eq_refl Ha).
Defined.

End NodeProperties.
